(** * compare-contiguous-pics: a shallow embedding of the script

    The script lists the pictures of a directory, orders them by the number
    embedded in their names, converts each of them to a raw YUV frame with
    ffmpeg, scores every pair of neighbours with vmaf, and writes the scores
    to a CSV file.

    Pure code (the key function of the sort, the path arithmetic, the
    subscripting of the parsed JSON document, the argument vectors) is
    embedded as Rocq functions.  The operating system (directory listing,
    mkdir, process spawning, file reading and writing) is an oracle threaded
    through a small state-and-exception monad that also records every
    effect of the program in a trace.

    Modelling choices:
    - file names are ASCII strings, so [\d] matches ['0'..'9'] only;
    - the entries of a directory listing are single path components, and
      [Path.stem] follows pathlib up to Python 3.13;
    - [sorted] is stable, and is embedded as a stable insertion sort
      (see [sorted_by_key_stable]);
    - a parsed JSON document is a Python value; its floats are binary64;
    - the CSV file is a list of rows of cells: how the [csv] module quotes
      and prints a cell is left to the library;
    - [main] starts after [parse_arguments]; an exception that escapes from
      it ends the interpreter with status 1. *)

From Stdlib Require Import String Ascii List NArith ZArith Lia.
From Stdlib Require Import Permutation Sorted DecimalString DecimalNat PrimFloat.
From stdpp Require Import base list strings gmap sorting.

Set Warnings "-register-all,-inexact-float,-clear-no-such-hyp".
Local Open Scope string_scope.
Local Open Scope list_scope.

(** ** Exceptions and results *)

(** The Python exceptions the script can let escape. *)
Inductive exn :=
| IndexError
| KeyError
| TypeError
| OSError (what : string)
| JSONDecodeError
| CalledProcessError (returncode : Z) (cmd : list string).

Inductive result (A : Type) :=
| Ok (a : A)
| Raise (e : exn).
Arguments Ok {A} a.
Arguments Raise {A} e.

(** ** Strings *)

Module Str.

(** [c in '0'..'9']: the characters matched by [\d] (file names are taken
    to be ASCII, so Unicode decimal digits do not occur). *)
Definition is_digit (c : ascii) : bool :=
  (48 <=? nat_of_ascii c)%nat && (nat_of_ascii c <=? 57)%nat.

Definition digit_value (c : ascii) : N := N.of_nat (nat_of_ascii c - 48).

(** [s.endswith(suffix)] *)
Definition endswith (s suffix : string) : bool :=
  let n := String.length s in
  let k := String.length suffix in
  (k <=? n)%nat && String.eqb (substring (n - k) k s) suffix.

Definition snoc (s : string) (c : ascii) : string := s +:+ String c "".

(** [re.findall(r'\d+', x)]: the maximal runs of digits of [x], from left
    to right.  [cur] is the run being matched, if any. *)
Fixpoint findall_digits_from (cur : option string) (x : string) : list string :=
  match x with
  | "" => match cur with Some r => [r] | None => [] end
  | String c x' =>
      if is_digit c then
        findall_digits_from (Some (snoc (default "" cur) c)) x'
      else
        match cur with
        | Some r => r :: findall_digits_from None x'
        | None => findall_digits_from None x'
        end
  end.

Definition findall_digits (x : string) : list string :=
  findall_digits_from None x.

(** [int(r)] on a run of decimal digits. *)
Fixpoint int_from (acc : N) (r : string) : N :=
  match r with
  | "" => acc
  | String c r' => int_from (10 * acc + digit_value c)%N r'
  end.

Definition int (r : string) : N := int_from 0 r.

(** [str(n)] for a natural number. *)
Definition of_nat (n : nat) : string :=
  NilEmpty.string_of_uint (Nat.to_uint n).

(** [sep.join(l)] *)
Fixpoint join (sep : string) (l : list string) : string :=
  match l with
  | [] => ""
  | [s] => s
  | s :: l' => s +:+ sep +:+ join sep l'
  end.

(** [name.rfind('.')]: index of the last dot, if any. *)
Fixpoint rfind_dot_from (i : nat) (name : string) : option nat :=
  match name with
  | "" => None
  | String c name' =>
      match rfind_dot_from (S i) name' with
      | Some j => Some j
      | None => if Ascii.eqb c "." then Some i else None
      end
  end.

Definition rfind_dot (name : string) : option nat := rfind_dot_from 0 name.

End Str.

(** ** The Lister *)

(** The key of the sort: [lambda x: int(re.findall(r'\d+', x)[-1])].
    Subscripting an empty list with [-1] raises [IndexError]. *)
Definition sort_key (x : string) : result N :=
  match last (Str.findall_digits x) with
  | Some r => Ok (Str.int r)
  | None => Raise IndexError
  end.

(** [sorted(l, key=...)] first computes the key of every element, from left
    to right, and lets the first exception escape. *)
Fixpoint decorate (l : list string) : result (list (N * string)) :=
  match l with
  | [] => Ok []
  | x :: l' =>
      match sort_key x with
      | Raise e => Raise e
      | Ok k =>
          match decorate l' with
          | Raise e => Raise e
          | Ok dl => Ok ((k, x) :: dl)
          end
      end
  end.

(** [sorted] is a stable sort: elements with equal keys keep their order.
    A stable insertion sort computes the same list. *)
Fixpoint insert_by_key (p : N * string) (l : list (N * string)) : list (N * string) :=
  match l with
  | [] => [p]
  | q :: l' => if (p.1 <=? q.1)%N then p :: q :: l' else q :: insert_by_key p l'
  end.

Definition sort_by_key (l : list (N * string)) : list (N * string) :=
  foldr insert_by_key [] l.

Definition sorted_by_key (l : list string) : result (list string) :=
  match decorate l with
  | Raise e => Raise e
  | Ok dl => Ok (map snd (sort_by_key dl))
  end.

(** [f.endswith(f'.{extension}')] *)
Definition matches (extension : string) (f : string) : bool :=
  Str.endswith f ("." +:+ extension).

(** [get_sorted_image_list(directory, extension)], where [listing] is what
    [os.listdir(directory)] returned. *)
Definition get_sorted_image_list (listing : list string) (extension : string)
  : result (list string) :=
  sorted_by_key (List.filter (matches extension) listing).

(** ** Paths *)

Module Path.

(** A pure POSIX path: [root] is the empty string or a slash, [parts] are
    the components. *)
Record t := mk { root : string; parts : list string }.

(** [Path(name)] for a single component such as ['yuv_dir']. *)
Definition of_name (name : string) : t := mk "" [name].

(** [p / name], for [name] a single component: a directory entry or a
    file name the script builds from one. *)
Definition div (p : t) (name : string) : t := mk (root p) (parts p ++ [name]).

(** [str(p)] *)
Definition str (p : t) : string :=
  match root p, parts p with
  | "", [] => "."
  | r, ps => r +:+ Str.join "/" ps
  end.

(** [Path(name).stem] for a single component: the name without its last
    suffix; a leading or a trailing dot does not start a suffix. *)
Definition stem (name : string) : string :=
  match Str.rfind_dot name with
  | Some i =>
      if (0 <? i)%nat && (i <? String.length name - 1)%nat
      then substring 0 i name
      else name
  | None => name
  end.

End Path.

(** ** Parsed JSON documents *)

(** What [json.load] returns: the Python value of a JSON document. *)
Inductive value :=
| VNone
| VBool (b : bool)
| VInt (z : Z)
| VFloat (f : float)
| VStr (s : string)
| VList (l : list value)
| VDict (d : gmap string value).

(** [v[k]] for a string [k]. *)
Definition getitem_str (v : value) (k : string) : result value :=
  match v with
  | VDict d =>
      match d !! k with
      | Some x => Ok x
      | None => Raise KeyError
      end
  | _ => Raise TypeError
  end.

(** [v[i]] for a natural number [i]; the keys of a JSON object are strings,
    so an object never has the key [i]. *)
Definition getitem_int (v : value) (i : nat) : result value :=
  match v with
  | VList l =>
      match l !! i with
      | Some x => Ok x
      | None => Raise IndexError
      end
  | VStr s =>
      match String.get i s with
      | Some c => Ok (VStr (String c ""))
      | None => Raise IndexError
      end
  | VDict _ => Raise KeyError
  | _ => Raise TypeError
  end.

Definition and_then {A B} (r : result A) (k : A -> result B) : result B :=
  match r with
  | Ok a => k a
  | Raise e => Raise e
  end.

(** [vmaf_data['frames'][0]['metrics']['vmaf']] *)
Definition vmaf_score_of (vmaf_data : value) : result value :=
  and_then (getitem_str vmaf_data "frames") (fun frames =>
  and_then (getitem_int frames 0) (fun frame =>
  and_then (getitem_str frame "metrics") (fun metrics =>
  getitem_str metrics "vmaf"))).

(** ** Effects *)

(** Every call the script makes to the outside, with what came back. *)
Inductive event :=
| EPrint (line : string)
| EListdir (dir : string) (r : result (list string))
| EMkdir (dir : string) (r : result unit)
| ERun (cmd : list string) (r : result Z)
| ELoadJson (path : string) (r : result value)
| EOpenW (path : string) (r : result unit)
| EWriteRow (path : string) (row : list value) (r : result unit).

(** The operating system as an oracle over a state of its own.  [os_run]
    answers the return code of the process, or raises when the process
    cannot be started; [os_load_json] stands for [open(path, 'r')] followed
    by [json.load]. *)
Record os (World : Type) := {
  os_listdir : string -> World -> result (list string) * World;
  os_mkdir : string -> World -> result unit * World;
  os_run : list string -> World -> result Z * World;
  os_load_json : string -> World -> result value * World;
  os_open_w : string -> World -> result unit * World;
  os_write_row : string -> list value -> World -> result unit * World
}.
Arguments os_listdir {World} _ _ _.
Arguments os_mkdir {World} _ _ _.
Arguments os_run {World} _ _ _.
Arguments os_load_json {World} _ _ _.
Arguments os_open_w {World} _ _ _.
Arguments os_write_row {World} _ _ _ _.

(** A computation takes the world, and gives a result or an exception, the
    new world, and the events it caused, oldest first. *)
Definition M (World A : Type) : Type := World -> result A * World * list event.

Section Monad.
Context {World : Type}.

Definition ret {A} (a : A) : M World A := fun w => (Ok a, w, []).

Definition raise {A} (e : exn) : M World A := fun w => (Raise e, w, []).

Definition bind {A B} (m : M World A) (k : A -> M World B) : M World B :=
  fun w =>
    match m w with
    | (Ok a, w1, t1) =>
        match k a w1 with
        | (r, w2, t2) => (r, w2, t1 ++ t2)
        end
    | (Raise e, w1, t1) => (Raise e, w1, t1)
    end.

Definition lift {A} (r : result A) : M World A := fun w => (r, w, []).

(** One call to the outside: ask the oracle, record the event. *)
Definition call {A} (f : World -> result A * World) (ev : result A -> event)
  : M World A :=
  fun w => match f w with (r, w1) => (r, w1, [ev r]) end.

Definition print (line : string) : M World unit :=
  fun w => (Ok tt, w, [EPrint line]).

End Monad.

Notation "x <- m ;; k" := (bind m (fun x => k))
  (at level 100, m at next level, right associativity).
Notation "m ;;; k" := (bind m (fun _ => k))
  (at level 100, right associativity).

(** [for x in l: ys.append(body(x))] *)
Fixpoint for_each {World A B} (body : A -> M World B) (l : list A)
  : M World (list B) :=
  match l with
  | [] => ret []
  | x :: l' =>
      y <- body x ;;
      ys <- for_each body l' ;;
      ret (y :: ys)
  end.

(** [l[i]] on a list. *)
Definition index {A} (l : list A) (i : nat) : result A :=
  match l !! i with
  | Some x => Ok x
  | None => Raise IndexError
  end.

(** ** The script *)

(** What [parse_arguments] returns; [directory] and [output] are kept as
    the paths [main] makes of them. *)
Record args := {
  directory : Path.t;
  pic_ext : string;
  output : Path.t;
  vmaf_exe : string
}.

Definition fieldnames : list string := ["Image 1"; "Image 2"; "VMAF Score"].

(** [DictWriter._dict_to_list]: the cells of a row, in the order of the
    field names; a missing field is written as the empty string. *)
Definition dict_to_list (rowdict : gmap string value) : list value :=
  map (fun key => default (VStr "") (rowdict !! key)) fieldnames.

Definition ffmpeg_command (image_path yuv_path : string) : list string :=
  ["ffmpeg"; "-i"; image_path; "-s"; "1920x1080"; "-pix_fmt"; "yuv422p";
   yuv_path].

Definition vmaf_command (vmaf_exe yuv_file_1 yuv_file_2 json_output_path : string)
  : list string :=
  [vmaf_exe; "-r"; yuv_file_1; "-d"; yuv_file_2; "--width"; "1920";
   "--height"; "1080"; "--pixel_format"; "422"; "--bitdepth"; "8"; "--json";
   "--output"; json_output_path].

Definition json_name (i : nat) : string :=
  "compare_" +:+ Str.of_nat (i - 1) +:+ "_" +:+ Str.of_nat i +:+ ".json".

Definition yuv_dir : Path.t := Path.of_name "yuv_dir".
Definition json_dir : Path.t := Path.of_name "json_dir".

(** [Path(yuv_dir) / f"{Path(image).stem}.yuv"] *)
Definition yuv_file_of (image : string) : Path.t :=
  Path.div yuv_dir (Path.stem image +:+ ".yuv").

(** [json_dir / f"compare_{i-1}_{i}.json"] *)
Definition json_path (i : nat) : Path.t := Path.div json_dir (json_name i).

Section Program.
Context {World : Type} (sys : os World).

(** [subprocess.run(command, check=True)] *)
Definition subprocess_run_check (command : list string) : M World unit :=
  returncode <- call (os_run sys command) (ERun command) ;;
  if (returncode =? 0)%Z then ret tt
  else raise (CalledProcessError returncode command).

Definition mkdir_exist_ok (p : Path.t) : M World unit :=
  call (os_mkdir sys (Path.str p)) (EMkdir (Path.str p)).

Definition convert_to_yuv (image_path yuv_path : string) : M World unit :=
  let command := ffmpeg_command image_path yuv_path in
  subprocess_run_check command.

Definition compare_yuv_files
    (vmaf_exe yuv_file_1 yuv_file_2 json_output_path : string) : M World value :=
  let command := vmaf_command vmaf_exe yuv_file_1 yuv_file_2 json_output_path in
  print (Str.join " " command) ;;;
  subprocess_run_check command ;;;
  vmaf_data <- call (os_load_json sys json_output_path)
                    (ELoadJson json_output_path) ;;
  vmaf_score <- lift (vmaf_score_of vmaf_data) ;;
  ret vmaf_score.

(** The body of the conversion loop. *)
Definition convert_image (image_dir : Path.t) (image : string) : M World Path.t :=
  let image_path := Path.div image_dir image in
  let yuv_file := yuv_file_of image in
  convert_to_yuv (Path.str image_path) (Path.str yuv_file) ;;;
  ret yuv_file.

(** The body of the comparison loop. *)
Definition compare_pair (vmaf_exe : string) (images : list string)
    (yuv_files : list Path.t) (i : nat) : M World (gmap string value) :=
  let json_output_path := json_path i in
  yuv_file_1 <- lift (index yuv_files (i - 1)) ;;
  yuv_file_2 <- lift (index yuv_files i) ;;
  vmaf_score <- compare_yuv_files vmaf_exe (Path.str yuv_file_1)
                  (Path.str yuv_file_2) (Path.str json_output_path) ;;
  image_1 <- lift (index images (i - 1)) ;;
  image_2 <- lift (index images i) ;;
  ret ({[ "Image 1" := VStr image_1; "Image 2" := VStr image_2;
          "VMAF Score" := vmaf_score ]} : gmap string value).

(** [with open(output_csv, mode='w', newline='') as csv_file: ...] *)
Definition write_csv (output_csv : Path.t)
    (comparison_results : list (gmap string value)) : M World unit :=
  let path := Path.str output_csv in
  call (os_open_w sys path) (EOpenW path) ;;;
  call (os_write_row sys path (map VStr fieldnames))
       (EWriteRow path (map VStr fieldnames)) ;;;
  for_each (fun rowdict =>
              let row := dict_to_list rowdict in
              call (os_write_row sys path row) (EWriteRow path row))
           comparison_results ;;;
  ret tt.

Definition main (a : args) : M World unit :=
  let image_dir := directory a in
  let output_csv := output a in
  listing <- call (os_listdir sys (Path.str image_dir))
                  (EListdir (Path.str image_dir)) ;;
  images <- lift (get_sorted_image_list listing (pic_ext a)) ;;
  if (length images <? 2)%nat then
    print "Not enough images to compare."
  else
    mkdir_exist_ok yuv_dir ;;;
    mkdir_exist_ok json_dir ;;;
    yuv_files <- for_each (convert_image image_dir) images ;;
    comparison_results <-
      for_each (compare_pair (vmaf_exe a) images yuv_files)
               (seq 1 (length yuv_files - 1)) ;;
    write_csv output_csv comparison_results ;;;
    print ("Comparison completed. Results saved to " +:+ Path.str output_csv).

End Program.

(** The exit status of the interpreter: 0 when [main] returns, 1 when an
    exception escapes. *)
Definition exit_status {A} (r : result A) : Z :=
  match r with
  | Ok _ => 0
  | Raise _ => 1
  end.

(** ** A stub operating system *)

(** A world for running the script on examples: a fixed directory listing,
    return codes chosen per command, and result files chosen per path. *)
Record stub := {
  stub_listing : list string;
  stub_returncode : list string -> Z;
  stub_json : string -> result value
}.

Definition stub_os (s : stub) : os unit := {|
  os_listdir := fun _ w => (Ok (stub_listing s), w);
  os_mkdir := fun _ w => (Ok tt, w);
  os_run := fun cmd w => (Ok (stub_returncode s cmd), w);
  os_load_json := fun p w => (stub_json s p, w);
  os_open_w := fun _ w => (Ok tt, w);
  os_write_row := fun _ _ w => (Ok tt, w)
|}.

Definition vmaf_document (score : value) : value :=
  VDict {[ "frames" := VList [VDict {[ "metrics" := VDict {[ "vmaf" := score ]} ]}] ]}.

Definition png_args : args := {|
  directory := Path.of_name "pics";
  pic_ext := "png";
  output := Path.of_name "comparison.csv";
  vmaf_exe := "/home/user/bin/vmaf"
|}.

Definition three_images : stub := {|
  stub_listing := ["a3.png"; "a1.png"; "notes.txt"; "a2.png"];
  stub_returncode := fun _ => 0%Z;
  stub_json := fun p =>
    if String.eqb p "json_dir/compare_0_1.json" then Ok (vmaf_document (VFloat 90.0))
    else if String.eqb p "json_dir/compare_1_2.json" then Ok (vmaf_document (VFloat 95.5))
    else Raise (OSError "No such file or directory")
|}.

(** * The vocabulary of the properties *)

(** ** Keys and digits *)

Definition key_le (p q : N * string) : Prop := (p.1 <= q.1)%N.

(** [x] comes no later than [y] in the numeric order of the last digit run. *)
Definition key_ordered (x y : string) : Prop :=
  exists kx ky, sort_key x = Ok kx /\ sort_key y = Ok ky /\ (kx <= ky)%N.

(** The key, as a test: [x] has the key [k]. *)
Definition has_key (k : N) (x : string) : bool :=
  match sort_key x with
  | Ok k' => (k' =? k)%N
  | Raise _ => false
  end.

(** Every character of [s] is a digit. *)
Fixpoint digits_only (s : string) : bool :=
  match s with
  | "" => true
  | String c s' => Str.is_digit c && digits_only s'
  end.

(** No character of [s] is a digit. *)
Fixpoint digit_free (s : string) : bool :=
  match s with
  | "" => true
  | String c s' => negb (Str.is_digit c) && digit_free s'
  end.

(** [s] is empty or its last character is not a digit. *)
Fixpoint ends_clean (s : string) : bool :=
  match s with
  | "" => true
  | String c "" => negb (Str.is_digit c)
  | String _ s' => ends_clean s'
  end.

(** [c] is not a decimal digit: the standard library reads no number from
    the one-character string [c]. *)
Definition non_digit (c : ascii) : Prop :=
  NilEmpty.uint_of_string (String c "") = None.

(** [f] ends with [suffix]. *)
Definition ends_in (suffix f : string) : Prop :=
  exists pre, f = pre +:+ suffix.

(** [f] holds a decimal digit somewhere. *)
Definition contains_digit (f : string) : Prop :=
  exists s1 c s2, f = s1 +:+ String c s2 /\ ~ non_digit c.

(** [n] is the number that the last run of digits of [x] writes in base
    ten: [x] is [pre ++ r ++ post], where [r] is a non-empty string that the
    standard library reads as the decimal number [n], no digit follows [r],
    and no digit stands just before it. *)
Definition last_number (x : string) (n : nat) : Prop :=
  exists pre r post d,
    x = pre +:+ r +:+ post /\
    (pre = "" \/ exists pre' c, pre = pre' +:+ String c "" /\ non_digit c) /\
    r <> "" /\
    NilEmpty.uint_of_string r = Some d /\
    (forall s1 c s2, post = s1 +:+ String c s2 -> non_digit c) /\
    n = Nat.of_uint d.

(** [x] comes no later than [y] in the numeric order of the last numbers. *)
Definition numeric_order (x y : string) : Prop :=
  exists nx ny, last_number x nx /\ last_number y ny /\ nx <= ny.

(** [k] zeros. *)
Fixpoint zeros (k : nat) : string :=
  match k with
  | 0 => ""
  | S k' => String "0" (zeros k')
  end.

(** ** The events of a run, stage by stage *)

Definition not_enough : string := "Not enough images to compare.".

(** [images[i]], for an index in range. *)
Definition entry (images : list string) (i : nat) : string :=
  default "" (images !! i).

(** A conversion that succeeds. *)
Definition conversion_event (image_dir : Path.t) (image : string) : event :=
  ERun (ffmpeg_command (Path.str (Path.div image_dir image))
                       (Path.str (yuv_file_of image)))
       (Ok 0%Z).

(** A call of the Comparator that succeeds and reads [doc]. *)
Definition vmaf_events (exe yuv_file_1 yuv_file_2 json_output_path : string)
    (doc : value) : list event :=
  let cmd := vmaf_command exe yuv_file_1 yuv_file_2 json_output_path in
  [EPrint (Str.join " " cmd); ERun cmd (Ok 0%Z);
   ELoadJson json_output_path (Ok doc)].

(** The command line of the comparison of [images[i-1]] with [images[i]]. *)
Definition comparison_command (exe : string) (images : list string) (i : nat)
  : list string :=
  vmaf_command exe (Path.str (yuv_file_of (entry images (i - 1))))
               (Path.str (yuv_file_of (entry images i)))
               (Path.str (json_path i)).

Definition comparison_events (exe : string) (images : list string) (i : nat)
    (doc : value) : list event :=
  [EPrint (Str.join " " (comparison_command exe images i));
   ERun (comparison_command exe images i) (Ok 0%Z);
   ELoadJson (Path.str (json_path i)) (Ok doc)].

(** The row of the comparison of [images[i-1]] with [images[i]]. *)
Definition comparison_row (images : list string) (i : nat) (score : value)
  : list value :=
  [VStr (entry images (i - 1)); VStr (entry images i); score].

(** The report: the file is opened, the header and the rows are written. *)
Definition report_events (output_csv : Path.t) (rows : list (list value))
  : list event :=
  EOpenW (Path.str output_csv) (Ok tt)
  :: EWriteRow (Path.str output_csv) (map VStr fieldnames) (Ok tt)
  :: map (fun row => EWriteRow (Path.str output_csv) row (Ok tt)) rows.

(** The last message of a run that succeeds. *)
Definition completed (output_csv : Path.t) : event :=
  EPrint ("Comparison completed. Results saved to " +:+ Path.str output_csv).

(** The command line that the header of the script and the specification
    give for the scoring tool, with [--feature <variant>]. *)
Definition documented_vmaf_command
    (exe yuv_file_1 yuv_file_2 variant json_output_path : string) : list string :=
  [exe; "-r"; yuv_file_1; "-d"; yuv_file_2; "--width"; "1920";
   "--height"; "1080"; "--pixel_format"; "422"; "--bitdepth"; "8";
   "--feature"; variant; "--json"; "--output"; json_output_path].

(** The command line that the specification gives for the conversion of
    [image], a picture of [image_dir]: the destination is the base name of
    the picture with the extension [yuv], in the working directory. *)
Definition conversion_command (image_dir : Path.t) (image : string)
  : list string :=
  ["ffmpeg"; "-i"; Path.str (Path.div image_dir image); "-s"; "1920x1080";
   "-pix_fmt"; "yuv422p"; "yuv_dir/" +:+ Path.stem image +:+ ".yuv"].

(** ** Reading a trace *)

(** The command lines of the processes started, oldest first. *)
Definition commands (t : list event) : list (list string) :=
  omap (fun e => match e with ERun cmd _ => Some cmd | _ => None end) t.

(** The rows written, oldest first. *)
Definition rows_written (t : list event) : list (list value) :=
  omap (fun e => match e with EWriteRow _ row (Ok _) => Some row | _ => None end) t.

(** The files written through [open(path, 'w')]: opening empties the file,
    whether it was there or not, and writing a row appends it. *)
Definition csv_step (files : gmap string (list (list value))) (e : event)
  : gmap string (list (list value)) :=
  match e with
  | EOpenW path (Ok _) => <[path := []]> files
  | EWriteRow path row (Ok _) => alter (fun rows => rows ++ [row]) path files
  | _ => files
  end.

Definition csv_after (t : list event) (files : gmap string (list (list value)))
  : gmap string (list (list value)) :=
  foldl csv_step files t.

(** The process of the event, if any, returned 0. *)
Definition run_ok (e : event) : Prop :=
  match e with
  | ERun _ (Ok rc) => rc = 0%Z
  | _ => True
  end.

(** The event does not touch the CSV file. *)
Definition no_csv (e : event) : Prop :=
  match e with
  | EOpenW _ _ | EWriteRow _ _ _ => False
  | _ => True
  end.

(** The event does not start a process. *)
Definition no_run (e : event) : Prop :=
  match e with
  | ERun _ _ => False
  | _ => True
  end.

(** The computation stopped at the first process that returned a code other
    than 0: that process is the last event, [CalledProcessError] escapes,
    and the CSV file was not touched. *)
Definition aborted {A} (r : result A) (t : list event) : Prop :=
  exists t0 cmd rc,
    t = t0 ++ [ERun cmd (Ok rc)] /\ rc <> 0%Z /\ Forall run_ok t0 /\
    Forall no_csv t /\ r = Raise (CalledProcessError rc cmd).

Section Predicates.
Context {World : Type}.

(** Computations that run before the report is written: they leave the CSV
    file alone, and stop at the first process that fails. *)
Definition guarded {A} (m : M World A) : Prop :=
  forall w r w' t, m w = (r, w', t) ->
    Forall no_csv t /\ (Forall run_ok t \/ aborted r t).

Definition sound {A} (m : M World A) : Prop :=
  forall w r w' t, m w = (r, w', t) -> Forall run_ok t \/ aborted r t.

(** Computations that start no process. *)
Definition quiet {A} (m : M World A) : Prop :=
  forall w r w' t, m w = (r, w', t) -> Forall no_run t.

(** [a] is a value that [m] can return. *)
Definition returns {A} (m : M World A) (a : A) : Prop :=
  exists w w1 t1, m w = (Ok a, w1, t1).

(** The processes that [m] starts are the first of [cs], in that order, and
    all of [cs] when [m] returns. *)
Definition emits {A} (m : M World A) (cs : list (list string)) : Prop :=
  forall w r w' t, m w = (r, w', t) ->
    commands t `prefix_of` cs /\ (forall a, r = Ok a -> commands t = cs).

End Predicates.

(** ** Failures of any kind *)

(** The exception that an event makes the script raise, if any: a call to
    the outside that raised, a process that returned a code other than 0,
    a result document without the score. *)
Definition failure (e : event) : option exn :=
  match e with
  | EPrint _ => None
  | EListdir _ (Raise x) => Some x
  | EMkdir _ (Raise x) => Some x
  | ERun _ (Raise x) => Some x
  | ERun cmd (Ok rc) =>
      if (rc =? 0)%Z then None else Some (CalledProcessError rc cmd)
  | ELoadJson _ (Raise x) => Some x
  | ELoadJson _ (Ok doc) =>
      match vmaf_score_of doc with
      | Ok _ => None
      | Raise x => Some x
      end
  | EOpenW _ (Raise x) => Some x
  | EWriteRow _ _ (Raise x) => Some x
  | _ => None
  end.

Definition harmless (e : event) : Prop := failure e = None.

(** The computation went on as long as its events were harmless, and
    stopped at the first one that was not, with the exception of that
    event. *)
Definition stopped_at_failure {A} (r : result A) (t : list event) : Prop :=
  Forall harmless t \/
  exists t0 e x,
    t = t0 ++ [e] /\ failure e = Some x /\ Forall harmless t0 /\ r = Raise x.

(** The exception, if any, is that of the last event. *)
Definition raised_by_last_event {A} (r : result A) (t : list event) : Prop :=
  forall x, r = Raise x -> exists t0 e, t = t0 ++ [e] /\ failure e = Some x.

Section Stages.
Context {World : Type} (sys : os World).

Definition fail_fast {A} (m : M World A) : Prop :=
  forall w r w' t, m w = (r, w', t) -> stopped_at_failure r t.

Definition strict {A} (m : M World A) : Prop :=
  forall w r w' t, m w = (r, w', t) -> raised_by_last_event r t.

(** The stages of [main] between the Lister and the Reporter. *)
Definition prepare (a : args) (images : list string)
  : M World (list (gmap string value)) :=
  mkdir_exist_ok sys yuv_dir ;;;
  mkdir_exist_ok sys json_dir ;;;
  yuv_files <- for_each (convert_image sys (directory a)) images ;;
  for_each (compare_pair sys (vmaf_exe a) images yuv_files)
           (seq 1 (length yuv_files - 1)).

(** The last stage of [main]. *)
Definition report (a : args) (comparison_results : list (gmap string value))
  : M World unit :=
  write_csv sys (output a) comparison_results ;;;
  print ("Comparison completed. Results saved to " +:+ Path.str (output a)).

End Stages.

(** The event does not open a file for writing. *)
Definition no_open (e : event) : Prop :=
  match e with
  | EOpenW _ _ => False
  | _ => True
  end.

(** ** More worlds for the examples *)

(** The scoring tool writes a document with the given score. *)
Definition score_stub (score : value) : stub := {|
  stub_listing := [];
  stub_returncode := fun _ => 0%Z;
  stub_json := fun _ => Ok (vmaf_document score)
|}.

(** A single picture. *)
Definition one_image : stub := {|
  stub_listing := ["a1.png"; "readme.md"];
  stub_returncode := fun _ => 0%Z;
  stub_json := fun _ => Raise (OSError "No such file or directory")
|}.

(** A single picture, with no digit in its name. *)
Definition no_digits : stub := {|
  stub_listing := ["noDigitsHere.png"];
  stub_returncode := fun _ => 0%Z;
  stub_json := fun _ => Raise (OSError "No such file or directory")
|}.

(** The conversions succeed, the scoring tool returns 1. *)
Definition failing_scorer : stub := {|
  stub_listing := ["a3.png"; "a1.png"; "a2.png"];
  stub_returncode := fun cmd =>
    match cmd with
    | "ffmpeg" :: _ => 0%Z
    | _ => 1%Z
    end;
  stub_json := fun _ => Ok (vmaf_document (VFloat 90.0))
|}.

(** The scoring tool returns 0 and writes an empty object. *)
Definition malformed_result : stub := {|
  stub_listing := ["a1.png"; "a2.png"];
  stub_returncode := fun _ => 0%Z;
  stub_json := fun _ => Ok (VDict ∅)
|}.

(** A file system for the converted frames: a file holds the path of the
    picture it was converted from.  The conversion tool keeps its contract,
    it makes the file at the destination or returns a code other than 0;
    a file that is already there it leaves as it is, and returns 1.  The
    scoring tool always succeeds. *)
Definition frame_files : Type := gmap string string.

Definition keeping_os (listing : list string) : os frame_files := {|
  os_listdir := fun _ w => (Ok listing, w);
  os_mkdir := fun _ w => (Ok tt, w);
  os_run := fun cmd w =>
    match cmd, last cmd with
    | tool :: _ :: src :: _, Some dst =>
        if String.eqb tool "ffmpeg" then
          match w !! dst with
          | Some _ => (Ok 1%Z, w)
          | None => (Ok 0%Z, <[dst := src]> w)
          end
        else (Ok 0%Z, w)
    | _, _ => (Ok 0%Z, w)
    end;
  os_load_json := fun _ w => (Ok (vmaf_document (VFloat 90.0)), w);
  os_open_w := fun _ w => (Ok tt, w);
  os_write_row := fun _ _ w => (Ok tt, w)
|}.

(** The frame of [a1.png] is there, left by an earlier conversion. *)
Definition frame_left_over : frame_files :=
  {[ "yuv_dir/a1.yuv" := "old/a1.png" ]}.

Definition first_run : list event :=
  Eval vm_compute in (main (keeping_os ["a1.png"; "a2.png"]) png_args ∅).2.

Definition three_images_run : list event :=
  Eval vm_compute in (main (stub_os three_images) png_args tt).2.

Definition failing_scorer_run : list event :=
  Eval vm_compute in (main (stub_os failing_scorer) png_args tt).2.

(** * Properties *)

(** ** The sort *)

Lemma insert_by_key_perm p l : insert_by_key p l ≡ₚ p :: l.
Proof.
  induction l as [|q l IH]; simpl; [done|].
  destruct (p.1 <=? q.1)%N; [done|].
  rewrite IH. apply Permutation_swap.
Qed.

Lemma sort_by_key_perm l : sort_by_key l ≡ₚ l.
Proof.
  induction l as [|p l IH]; simpl; [done|].
  by rewrite insert_by_key_perm, IH.
Qed.

Lemma insert_by_key_sorted p l :
  StronglySorted key_le l -> StronglySorted key_le (insert_by_key p l).
Proof.
  induction 1 as [|q l Hl IH Hq]; simpl.
  - repeat constructor.
  - destruct (N.leb_spec p.1 q.1) as [Hle|Hlt].
    + constructor; [by constructor|].
      constructor; [done|].
      eapply Forall_impl; [exact Hq|].
      intros r Hr. unfold key_le in *. lia.
    + constructor; [done|].
      rewrite insert_by_key_perm. constructor; [|done].
      unfold key_le. lia.
Qed.

Lemma sort_by_key_sorted l : StronglySorted key_le (sort_by_key l).
Proof.
  induction l; simpl; [constructor|by apply insert_by_key_sorted].
Qed.

Lemma sort_key_ok x :
  Str.findall_digits x <> [] -> exists k, sort_key x = Ok k.
Proof.
  unfold sort_key. intros Hne.
  destruct (last (Str.findall_digits x)) as [r|] eqn:Hlast; [by eexists|].
  by apply last_None in Hlast.
Qed.

Lemma sort_key_raise x :
  Str.findall_digits x = [] -> sort_key x = Raise IndexError.
Proof. unfold sort_key. by intros ->. Qed.

Lemma sort_key_exn x e : sort_key x = Raise e -> e = IndexError.
Proof. unfold sort_key. destruct (last _); congruence. Qed.

Lemma decorate_ok l :
  Forall (fun x => Str.findall_digits x <> []) l ->
  exists dl, decorate l = Ok dl /\ map snd dl = l /\
             Forall (fun p => sort_key p.2 = Ok p.1) dl.
Proof.
  induction 1 as [|x l Hx _ (dl & Hdl & Hsnd & Hkeys)]; simpl.
  - by exists [].
  - destruct (sort_key_ok x Hx) as [k Hk]. rewrite Hk, Hdl.
    exists ((k, x) :: dl). split_and!; [done|by simpl; f_equal|by constructor].
Qed.

Lemma decorate_raise l x :
  x ∈ l -> Str.findall_digits x = [] -> decorate l = Raise IndexError.
Proof.
  intros Hin Hx. induction Hin as [x l|x y l Hin IH]; simpl.
  - by rewrite (sort_key_raise x Hx).
  - destruct (sort_key y) as [k|e] eqn:Hy.
    + by rewrite IH.
    + by rewrite (sort_key_exn _ _ Hy).
Qed.

Lemma sorted_keys_ordered dl :
  Forall (fun p => sort_key p.2 = Ok p.1) dl ->
  StronglySorted key_le dl ->
  StronglySorted key_ordered (map snd dl).
Proof.
  intros Hkeys. induction 1 as [|p dl Hdl IH Hp]; simpl; [constructor|].
  apply Forall_cons in Hkeys as [Hk Hkeys].
  constructor; [by apply IH|].
  apply Forall_map, Forall_forall. intros q Hq.
  exists p.1, q.1. split_and!; [done| |].
  - by eapply Forall_forall in Hkeys.
  - by eapply Forall_forall in Hp.
Qed.

Lemma sorted_by_key_ok l :
  Forall (fun x => Str.findall_digits x <> []) l ->
  exists out, sorted_by_key l = Ok out /\ out ≡ₚ l /\
              StronglySorted key_ordered out.
Proof.
  intros (dl & Hdl & Hsnd & Hkeys)%decorate_ok.
  unfold sorted_by_key. rewrite Hdl. eexists; split_and!; [done|..].
  - rewrite <- Hsnd. apply Permutation_map, sort_by_key_perm.
  - apply sorted_keys_ordered; [|apply sort_by_key_sorted].
    by rewrite sort_by_key_perm.
Qed.

Lemma elem_of_matching extension listing f :
  f ∈ List.filter (matches extension) listing <->
  f ∈ listing /\ matches extension f = true.
Proof. by rewrite !list_elem_of_In, filter_In. Qed.

(** ** Running computations *)

Section Running.
Context {World : Type}.

Lemma bind_ok {A B} (m : M World A) (k : A -> M World B) w a w1 t1 r w2 t2 :
  m w = (Ok a, w1, t1) -> k a w1 = (r, w2, t2) ->
  bind m k w = (r, w2, t1 ++ t2).
Proof. unfold bind. by intros -> ->. Qed.

Lemma bind_raise {A B} (m : M World A) (k : A -> M World B) w e w1 t1 :
  m w = (Raise e, w1, t1) -> bind m k w = (Raise e, w1, t1).
Proof. unfold bind. by intros ->. Qed.

Lemma bind_inv {A B} (m : M World A) (k : A -> M World B) w r w2 t :
  bind m k w = (r, w2, t) ->
  (exists e, m w = (Raise e, w2, t) /\ r = Raise e) \/
  (exists a w1 t1 t2,
      m w = (Ok a, w1, t1) /\ k a w1 = (r, w2, t2) /\ t = t1 ++ t2).
Proof.
  unfold bind. destruct (m w) as [[[a|e] w1] t1].
  - destruct (k a w1) as [[r' w2'] t2] eqn:Hk. intros [= <- <- <-].
    right. by exists a, w1, t1, t2.
  - intros [= <- <- <-]. left. by exists e.
Qed.

Lemma bind_ok_inv {A B} (m : M World A) (k : A -> M World B) w b w2 t :
  bind m k w = (Ok b, w2, t) ->
  exists a w1 t1 t2,
    m w = (Ok a, w1, t1) /\ k a w1 = (Ok b, w2, t2) /\ t = t1 ++ t2.
Proof. intros [(e & _ & [=])|H]%bind_inv. done. Qed.

Lemma call_inv {A} (f : World -> result A * World) ev w r w1 t :
  call f ev w = (r, w1, t) -> f w = (r, w1) /\ t = [ev r].
Proof. unfold call. destruct (f w) as [r' w']. by intros [= <- <- <-]. Qed.

Lemma call_run {A} (f : World -> result A * World) ev w r w1 :
  f w = (r, w1) -> call f ev w = (r, w1, [ev r]).
Proof. unfold call. by intros ->. Qed.

End Running.

(** ** The Lister refuses a name without digits *)

Lemma lister_raise listing extension f :
  f ∈ listing -> matches extension f = true -> Str.findall_digits f = [] ->
  get_sorted_image_list listing extension = Raise IndexError.
Proof.
  intros Hin Hm Hnone. unfold get_sorted_image_list, sorted_by_key.
  erewrite decorate_raise; [done| |done].
  by apply elem_of_matching.
Qed.

Lemma main_lister_raise {World} (sys : os World) a w w1 listing e :
  os_listdir sys (Path.str (directory a)) w = (Ok listing, w1) ->
  get_sorted_image_list listing (pic_ext a) = Raise e ->
  main sys a w
  = (Raise e, w1, [EListdir (Path.str (directory a)) (Ok listing)]).
Proof.
  intros Hls Himages. unfold main.
  erewrite bind_ok; [|by apply call_run|].
  2: { apply bind_raise. unfold lift. by rewrite Himages. }
  done.
Qed.

(** C6. When some listed name ends in [.<extension>] and contains no digit,
    the Lister raises (the [IndexError] of subscripting the empty list of
    digit runs), and the exception escapes from [main]: the run stops right
    after the directory was listed, with a non-zero exit status.  The file
    is not skipped.  This is so on the listing [noDigitsHere.png]. *)
Theorem lister_rejects_name_without_digits
    (listing : list string) (extension f : string)
    (Hin : f ∈ listing) (Hmatch : matches extension f = true)
    (Hnone : Str.findall_digits f = []) :
  get_sorted_image_list listing extension = Raise IndexError /\
  (forall World (sys : os World) a w w1,
      pic_ext a = extension ->
      os_listdir sys (Path.str (directory a)) w = (Ok listing, w1) ->
      main sys a w
      = (Raise IndexError, w1, [EListdir (Path.str (directory a)) (Ok listing)])
      /\ exit_status (main sys a w).1.1 = 1%Z) /\
  get_sorted_image_list ["noDigitsHere.png"] "png" = Raise IndexError.
Proof.
  pose proof (lister_raise listing extension f Hin Hmatch Hnone) as Hraise.
  split_and!; [done| |by vm_compute].
  intros World sys a w w1 <- Hls.
  by rewrite (main_lister_raise sys a w w1 listing IndexError Hls Hraise).
Qed.

Lemma lister_rejects_name_without_digits_witness :
  get_sorted_image_list ["a1.png"; "cover.png"; "a2.png"] "png"
  = Raise IndexError.
Proof.
  refine (proj1 (lister_rejects_name_without_digits
                   ["a1.png"; "cover.png"; "a2.png"] "png" "cover.png" _ _ _)).
  - apply list_elem_of_further, list_elem_of_here.
  - by vm_compute.
  - by vm_compute.
Defined.

(** ** The Comparator *)

Lemma subprocess_run_check_ok {World} (sys : os World) cmd w w1 :
  os_run sys cmd w = (Ok 0%Z, w1) ->
  subprocess_run_check sys cmd w = (Ok tt, w1, [ERun cmd (Ok 0%Z)]).
Proof.
  intros Hrun. unfold subprocess_run_check.
  erewrite bind_ok; [|by apply call_run|]; done.
Qed.

Lemma compare_yuv_files_ok {World} (sys : os World) exe f1 f2 path w w1 w2 doc score :
  os_run sys (vmaf_command exe f1 f2 path) w = (Ok 0%Z, w1) ->
  os_load_json sys path w1 = (Ok doc, w2) ->
  vmaf_score_of doc = Ok score ->
  compare_yuv_files sys exe f1 f2 path w
  = (Ok score, w2, vmaf_events exe f1 f2 path doc).
Proof.
  intros Hrun Hload Hscore. unfold compare_yuv_files.
  erewrite bind_ok; [|done|].
  2: { erewrite bind_ok; [|by apply subprocess_run_check_ok|].
       2: { erewrite bind_ok; [|by apply call_run|].
            2: { erewrite bind_ok; [|by unfold lift; rewrite Hscore|]; done. }
            done. }
       done. }
  done.
Qed.

(** C3. When the scoring tool returns 0 and the result file parses to an
    object whose ["frames"] is a list, the first element of which is an
    object whose ["metrics"] is an object with the field ["vmaf"], the
    Comparator returns the value of that field, unchanged.  On the document
    [{"frames":[{"metrics":{"vmaf":97.43}}]}] it returns 97.43. *)
Theorem comparator_returns_score {World} (sys : os World)
    (exe yuv_file_1 yuv_file_2 json_output_path : string) (w w1 w2 : World)
    (d frame metrics : gmap string value) (frames : list value) (score : value)
    (Hrun : os_run sys (vmaf_command exe yuv_file_1 yuv_file_2 json_output_path) w
            = (Ok 0%Z, w1))
    (Hload : os_load_json sys json_output_path w1 = (Ok (VDict d), w2))
    (Hframes : d !! "frames" = Some (VList (VDict frame :: frames)))
    (Hmetrics : frame !! "metrics" = Some (VDict metrics))
    (Hscore : metrics !! "vmaf" = Some score) :
  compare_yuv_files sys exe yuv_file_1 yuv_file_2 json_output_path w
  = (Ok score, w2,
     vmaf_events exe yuv_file_1 yuv_file_2 json_output_path (VDict d)) /\
  (compare_yuv_files (stub_os (score_stub (VFloat 97.43)))
     "vmaf" "a1.yuv" "a2.yuv" "compare_0_1.json" tt).1.1
  = Ok (VFloat 97.43).
Proof.
  split; [|by vm_compute].
  eapply compare_yuv_files_ok; [done..|].
  unfold vmaf_score_of; simpl. rewrite Hframes; simpl.
  rewrite Hmetrics; simpl. by rewrite Hscore.
Qed.

Lemma comparator_returns_score_witness :
  compare_yuv_files (stub_os (score_stub (VInt 100)))
    "vmaf" "a1.yuv" "a2.yuv" "compare_0_1.json" tt
  = (Ok (VInt 100), tt,
     vmaf_events "vmaf" "a1.yuv" "a2.yuv" "compare_0_1.json"
       (vmaf_document (VInt 100))).
Proof.
  refine (proj1 (comparator_returns_score (stub_os (score_stub (VInt 100)))
                   "vmaf" "a1.yuv" "a2.yuv" "compare_0_1.json" tt tt tt
                   {[ "frames" := VList [VDict {[ "metrics" := VDict {[ "vmaf" := VInt 100 ]} ]}] ]}
                   {[ "metrics" := VDict {[ "vmaf" := VInt 100 ]} ]}
                   {[ "vmaf" := VInt 100 ]} [] (VInt 100) _ _ _ _ _));
    reflexivity.
Defined.

(** C4. The Comparator starts the scoring tool with sixteen arguments,
    [<tool> -r <ref> -d <dist> --width 1920 --height 1080 --pixel_format 422
    --bitdepth 8 --json --output <result_path>]: the result goes to the given
    file, but no [--feature <variant>] is passed, whatever the variant. *)
Theorem comparator_command_has_no_feature_flag {World} (sys : os World)
    (exe yuv_file_1 yuv_file_2 json_output_path : string) (w : World) :
  (exists r w' rc t,
      compare_yuv_files sys exe yuv_file_1 yuv_file_2 json_output_path w
      = (r, w', EPrint (Str.join " " (vmaf_command exe yuv_file_1 yuv_file_2
                                        json_output_path))
                :: ERun (vmaf_command exe yuv_file_1 yuv_file_2 json_output_path) rc
                :: t)) /\
  vmaf_command exe yuv_file_1 yuv_file_2 json_output_path
  = [exe; "-r"; yuv_file_1; "-d"; yuv_file_2; "--width"; "1920";
     "--height"; "1080"; "--pixel_format"; "422"; "--bitdepth"; "8";
     "--json"; "--output"; json_output_path] /\
  forall variant,
    vmaf_command exe yuv_file_1 yuv_file_2 json_output_path
    <> documented_vmaf_command exe yuv_file_1 yuv_file_2 variant json_output_path.
Proof.
  split_and!; [|done|by intros variant [=]].
  unfold compare_yuv_files, subprocess_run_check, bind, print, call.
  destruct (os_run sys _ w) as [[rc|e] w1]; simpl.
  - destruct (rc =? 0)%Z; simpl.
    + destruct (os_load_json sys _ w1) as [[doc|e] w2]; simpl.
      * unfold lift. destruct (vmaf_score_of doc); simpl; by eexists _, _, _, _.
      * by eexists _, _, _, _.
    + by eexists _, _, _, _.
  - by eexists _, _, _, _.
Qed.

(** ** Fewer than two images *)

Lemma main_not_enough {World} (sys : os World) a w w1 listing images :
  os_listdir sys (Path.str (directory a)) w = (Ok listing, w1) ->
  get_sorted_image_list listing (pic_ext a) = Ok images ->
  length images < 2 ->
  main sys a w
  = (Ok tt, w1,
     [EListdir (Path.str (directory a)) (Ok listing); EPrint not_enough]).
Proof.
  intros Hls Himages Hfew. unfold main.
  erewrite bind_ok; [|by apply call_run|].
  2: { erewrite bind_ok; [|by unfold lift; rewrite Himages|].
       2: { apply Nat.ltb_lt in Hfew. rewrite Hfew. done. }
       done. }
  done.
Qed.

(** C10. When the Lister returns fewer than two names, [main] returns right
    after printing its message: the only calls to the outside are the
    listing of the directory and the print.  No directory is made, no
    process is started, no file is opened, and the world is left as the
    listing left it. *)
Theorem main_returns_before_any_effect {World} (sys : os World) (a : args)
    (w w1 : World) (listing images : list string)
    (Hls : os_listdir sys (Path.str (directory a)) w = (Ok listing, w1))
    (Himages : get_sorted_image_list listing (pic_ext a) = Ok images)
    (Hfew : length images < 2) :
  main sys a w
  = (Ok tt, w1,
     [EListdir (Path.str (directory a)) (Ok listing);
      EPrint "Not enough images to compare."]).
Proof. by apply main_not_enough with images. Qed.

Lemma main_returns_before_any_effect_witness :
  main (stub_os one_image) png_args tt
  = (Ok tt, tt,
     [EListdir "pics" (Ok ["a1.png"; "readme.md"]);
      EPrint "Not enough images to compare."]).
Proof.
  apply (main_returns_before_any_effect (stub_os one_image) png_args tt tt
           ["a1.png"; "readme.md"] ["a1.png"]).
  - reflexivity.
  - by vm_compute.
  - simpl. lia.
Defined.

(** One name matches the extension, so fewer than two do; yet the run does
    not end cleanly: the key function raises, the exit status is 1 and the
    message is not printed. *)
Lemma clean_exit_counterexample :
  length (List.filter (matches "png") (stub_listing no_digits)) < 2 /\
  main (stub_os no_digits) png_args tt
  = (Raise IndexError, tt, [EListdir "pics" (Ok ["noDigitsHere.png"])]) /\
  exit_status (main (stub_os no_digits) png_args tt).1.1 = 1%Z.
Proof. split_and!; [simpl; lia|by vm_compute..]. Qed.

(** C5, amended. When fewer than two listed names end in [.<extension>] and
    each of them contains a digit, the run ends cleanly: [main] returns
    (exit status 0) after printing [Not enough images to compare.]; nothing
    else happens after the listing of the directory, so no external tool is
    started and no CSV file is written. *)
Theorem fewer_than_two_images_exit_cleanly {World} (sys : os World) (a : args)
    (w w1 : World) (listing : list string)
    (Hls : os_listdir sys (Path.str (directory a)) w = (Ok listing, w1))
    (Hfew : length (List.filter (matches (pic_ext a)) listing) < 2)
    (Hdigits : forall f, f ∈ listing -> matches (pic_ext a) f = true ->
                         Str.findall_digits f <> []) :
  main sys a w
  = (Ok tt, w1,
     [EListdir (Path.str (directory a)) (Ok listing);
      EPrint "Not enough images to compare."]) /\
  exit_status (main sys a w).1.1 = 0%Z.
Proof.
  destruct (sorted_by_key_ok (List.filter (matches (pic_ext a)) listing))
    as (images & Himages & Hperm & _).
  { apply Forall_forall. intros f [Hin Hm]%elem_of_matching. by apply Hdigits. }
  assert (main sys a w
          = (Ok tt, w1, [EListdir (Path.str (directory a)) (Ok listing);
                         EPrint not_enough])) as Hmain.
  { apply main_not_enough with images; [done..|]. by rewrite Hperm. }
  by rewrite Hmain.
Qed.

Lemma fewer_than_two_images_exit_cleanly_witness :
  main (stub_os one_image) png_args tt
  = (Ok tt, tt,
     [EListdir "pics" (Ok ["a1.png"; "readme.md"]);
      EPrint "Not enough images to compare."]) /\
  exit_status (main (stub_os one_image) png_args tt).1.1 = 0%Z.
Proof.
  apply (fewer_than_two_images_exit_cleanly (stub_os one_image) png_args tt tt
           ["a1.png"; "readme.md"]).
  - reflexivity.
  - simpl. lia.
  - intros f Hin Hm.
    repeat (apply elem_of_cons in Hin as [->|Hin]); try (by vm_compute).
    by apply elem_of_nil in Hin.
Defined.

(** ** Runs that complete *)

Section Completed.
Context {World : Type} (sys : os World).

Lemma lift_inv {A} (r : result A) (w : World) r' w' t :
  lift r w = (r', w', t) -> r' = r /\ w' = w /\ t = [].
Proof. unfold lift. by intros [= <- <- <-]. Qed.

Lemma subprocess_run_check_inv cmd w r w' t :
  subprocess_run_check sys cmd w = (r, w', t) ->
  exists rc, os_run sys cmd w = (rc, w') /\ t = [ERun cmd rc] /\
    r = match rc with
        | Ok c => if (c =? 0)%Z then Ok tt else Raise (CalledProcessError c cmd)
        | Raise e => Raise e
        end.
Proof.
  unfold subprocess_run_check.
  intros [(e & [Hrun ->]%call_inv & ->)
         |(c & w1 & t1 & t2 & [Hrun ->]%call_inv & Hk & ->)]%bind_inv.
  - by exists (Raise e).
  - exists (Ok c). destruct (c =? 0)%Z;
      injection Hk as <- <- <-; by rewrite Hrun.
Qed.

Lemma subprocess_run_check_ok_inv cmd w u w' t :
  subprocess_run_check sys cmd w = (Ok u, w', t) ->
  os_run sys cmd w = (Ok 0%Z, w') /\ t = [ERun cmd (Ok 0%Z)].
Proof.
  intros (rc & Hrun & -> & Hr)%subprocess_run_check_inv.
  destruct rc as [c|e]; [|done].
  destruct (Z.eqb_spec c 0) as [->|]; done.
Qed.

Lemma convert_image_ok_inv image_dir image w y w' t :
  convert_image sys image_dir image w = (Ok y, w', t) ->
  y = yuv_file_of image /\ t = [conversion_event image_dir image].
Proof.
  unfold convert_image, convert_to_yuv.
  intros (u & w1 & t1 & t2 & [_ ->]%subprocess_run_check_ok_inv & Hret & ->)
    %bind_ok_inv.
  by injection Hret as <- <- <-.
Qed.

Lemma conversions_ok_inv image_dir images w ys w' t :
  for_each (convert_image sys image_dir) images w = (Ok ys, w', t) ->
  ys = map yuv_file_of images /\ t = map (conversion_event image_dir) images.
Proof.
  revert w ys w' t. induction images as [|image images IH]; intros w ys w' t; simpl.
  - by intros [= <- <- <-].
  - intros (y & w1 & t1 & t2 & [-> ->]%convert_image_ok_inv & Hrest & ->)
      %bind_ok_inv.
    apply bind_ok_inv in Hrest
        as (ys' & w2 & t3 & t4 & [-> ->]%IH & Hret & ->).
    injection Hret as <- <- <-. by rewrite app_nil_r.
Qed.

Lemma compare_yuv_files_ok_inv exe f1 f2 path w score w' t :
  compare_yuv_files sys exe f1 f2 path w = (Ok score, w', t) ->
  exists doc, vmaf_score_of doc = Ok score /\ t = vmaf_events exe f1 f2 path doc.
Proof.
  unfold compare_yuv_files.
  intros (u & w1 & t1 & t2 & Hprint & Hrest & ->)%bind_ok_inv.
  injection Hprint as <- <- <-.
  apply bind_ok_inv in Hrest
      as (u & w2 & t1 & t3 & [_ ->]%subprocess_run_check_ok_inv & Hrest & ->).
  apply bind_ok_inv in Hrest
      as (doc & w3 & t1 & t4 & [_ ->]%call_inv & Hrest & ->).
  apply bind_ok_inv in Hrest
      as (score' & w4 & t1 & t5 & (Hscore & -> & ->)%lift_inv & Hret & ->).
  injection Hret as <- <- <-. by exists doc.
Qed.

Lemma index_map_inv (images : list string) i y :
  index (map yuv_file_of images) i = Ok y -> y = yuv_file_of (entry images i).
Proof.
  unfold index, entry. change (map yuv_file_of images) with (yuv_file_of <$> images).
  rewrite list_lookup_fmap. destruct (images !! i); simpl; congruence.
Qed.

Lemma index_inv (images : list string) i x :
  index images i = Ok x -> x = entry images i.
Proof. unfold index, entry. destruct (images !! i); simpl; congruence. Qed.

Lemma dict_to_list_row (a b c : value) :
  dict_to_list {[ "Image 1" := a; "Image 2" := b; "VMAF Score" := c ]}
  = [a; b; c].
Proof. unfold dict_to_list, fieldnames. simpl. by simplify_map_eq. Qed.

Lemma compare_pair_ok_inv exe images i w rowdict w' t :
  compare_pair sys exe images (map yuv_file_of images) i w = (Ok rowdict, w', t) ->
  exists doc score,
    vmaf_score_of doc = Ok score /\
    t = comparison_events exe images i doc /\
    dict_to_list rowdict = comparison_row images i score.
Proof.
  unfold compare_pair.
  intros (f1 & w1 & t1 & t2 & (Hf1 & -> & ->)%lift_inv & Hrest & ->)%bind_ok_inv.
  symmetry in Hf1. apply index_map_inv in Hf1 as ->.
  apply bind_ok_inv in Hrest
      as (f2 & w1 & t1 & t3 & (Hf2 & -> & ->)%lift_inv & Hrest & ->).
  symmetry in Hf2. apply index_map_inv in Hf2 as ->.
  apply bind_ok_inv in Hrest
      as (score & w1 & t1 & t4 & (doc & Hscore & ->)%compare_yuv_files_ok_inv
          & Hrest & ->).
  apply bind_ok_inv in Hrest
      as (im1 & w2 & t1 & t5 & (Him1 & -> & ->)%lift_inv & Hrest & ->).
  symmetry in Him1. apply index_inv in Him1 as ->.
  apply bind_ok_inv in Hrest
      as (im2 & w2 & t1 & t6 & (Him2 & -> & ->)%lift_inv & Hret & ->).
  symmetry in Him2. apply index_inv in Him2 as ->.
  injection Hret as <- <- <-.
  exists doc, score. split_and!; [done|done|apply dict_to_list_row].
Qed.

Lemma comparisons_ok_inv exe images indices w rowdicts w' t :
  for_each (compare_pair sys exe images (map yuv_file_of images)) indices w
  = (Ok rowdicts, w', t) ->
  exists docs scores,
    Forall2 (fun doc score => vmaf_score_of doc = Ok score) docs scores /\
    length docs = length indices /\
    t = concat (zip_with (comparison_events exe images) indices docs) /\
    map dict_to_list rowdicts = zip_with (comparison_row images) indices scores.
Proof.
  revert w rowdicts w' t.
  induction indices as [|i indices IH]; intros w rowdicts w' t; simpl.
  - intros [= <- <- <-]. by exists [], [].
  - intros (rowdict & w1 & t1 & t2
            & (doc & score & Hscore & -> & Hrow)%compare_pair_ok_inv
            & Hrest & ->)%bind_ok_inv.
    apply bind_ok_inv in Hrest
        as (rowdicts' & w2 & t3 & t4
            & (docs & scores & Hscores & Hlen & -> & Hrows)%IH & Hret & ->).
    injection Hret as <- <- <-.
    exists (doc :: docs), (score :: scores).
    split_and!; [by constructor|by simpl; f_equal| |by simpl; f_equal].
    rewrite app_nil_r. done.
Qed.

Lemma write_rows_ok_inv path rowdicts w us w' t :
  for_each (fun rowdict =>
              call (os_write_row sys path (dict_to_list rowdict))
                   (EWriteRow path (dict_to_list rowdict))) rowdicts w
  = (Ok us, w', t) ->
  t = map (fun row => EWriteRow path row (Ok tt)) (map dict_to_list rowdicts).
Proof.
  revert w us w' t.
  induction rowdicts as [|rowdict rowdicts IH]; intros w us w' t; simpl.
  - by intros [= <- <- <-].
  - intros ([] & w1 & t1 & t2 & [_ ->]%call_inv & Hrest & ->)%bind_ok_inv.
    apply bind_ok_inv in Hrest as (us' & w2 & t3 & t4 & ->%IH & Hret & ->).
    injection Hret as <- <- <-. by rewrite app_nil_r.
Qed.

Lemma write_csv_ok_inv output_csv rowdicts w u w' t :
  write_csv sys output_csv rowdicts w = (Ok u, w', t) ->
  t = report_events output_csv (map dict_to_list rowdicts).
Proof.
  unfold write_csv.
  intros ([] & w1 & t1 & t2 & [_ ->]%call_inv & Hrest & ->)%bind_ok_inv.
  apply bind_ok_inv in Hrest
      as ([] & w2 & t1 & t3 & [_ ->]%call_inv & Hrest & ->).
  apply bind_ok_inv in Hrest
      as (us & w3 & t1 & t4 & ->%write_rows_ok_inv & Hret & ->).
  injection Hret as <- <- <-. by rewrite app_nil_r.
Qed.

(** The whole trace of a run on two images or more that completes. *)
Lemma main_ok_trace a w w1 listing images u w' t :
  os_listdir sys (Path.str (directory a)) w = (Ok listing, w1) ->
  get_sorted_image_list listing (pic_ext a) = Ok images ->
  2 <= length images ->
  main sys a w = (Ok u, w', t) ->
  exists docs scores,
    Forall2 (fun doc score => vmaf_score_of doc = Ok score) docs scores /\
    length docs = length images - 1 /\
    t = [EListdir (Path.str (directory a)) (Ok listing);
         EMkdir "yuv_dir" (Ok tt); EMkdir "json_dir" (Ok tt)]
        ++ map (conversion_event (directory a)) images
        ++ concat (zip_with (comparison_events (vmaf_exe a) images)
                            (seq 1 (length images - 1)) docs)
        ++ report_events (output a)
             (zip_with (comparison_row images) (seq 1 (length images - 1)) scores)
        ++ [completed (output a)].
Proof.
  intros Hls Himages Hlen. unfold main.
  intros (listing' & ? & t1 & t2 & [Hls' ->]%call_inv & Hrest & ->)%bind_ok_inv.
  rewrite Hls in Hls'. injection Hls' as -> ->.
  apply bind_ok_inv in Hrest
      as (images' & ? & t1 & t3 & (Himages' & -> & ->)%lift_inv & Hrest & ->).
  rewrite Himages in Himages'. injection Himages' as ->.
  destruct (Nat.ltb_spec (length images) 2) as [|_]; [lia|].
  apply bind_ok_inv in Hrest
      as ([] & ? & t1 & t4 & [_ ->]%call_inv & Hrest & ->).
  apply bind_ok_inv in Hrest
      as ([] & ? & t1 & t5 & [_ ->]%call_inv & Hrest & ->).
  apply bind_ok_inv in Hrest
      as (yuv_files & ? & t1 & t6 & [-> ->]%conversions_ok_inv & Hrest & ->).
  rewrite length_map in Hrest.
  apply bind_ok_inv in Hrest
      as (rowdicts & ? & t1 & t7
          & (docs & scores & Hscores & Hdocs & -> & Hrows)%comparisons_ok_inv
          & Hrest & ->).
  apply bind_ok_inv in Hrest
      as ([] & ? & t1 & t8 & ->%write_csv_ok_inv & Hprint & ->).
  injection Hprint as <- <- <-.
  exists docs, scores. rewrite length_seq in Hdocs. rewrite Hrows.
  split_and!; done.
Qed.

End Completed.

(** ** Names of the working files *)

Lemma string_of_uint_digits d : digits_only (NilEmpty.string_of_uint d) = true.
Proof. induction d; simpl; auto. Qed.

Lemma of_nat_digits n : digits_only (Str.of_nat n) = true.
Proof. apply string_of_uint_digits. Qed.

Lemma of_nat_inj i j : Str.of_nat i = Str.of_nat j -> i = j.
Proof.
  unfold Str.of_nat. intros Heq. apply Unsigned.to_uint_inj.
  apply (f_equal NilEmpty.uint_of_string) in Heq.
  rewrite !NilEmpty.usu in Heq. congruence.
Qed.

(** Two strings that agree, each a run of digits followed by a character
    that is not a digit, have the same run and the same rest. *)
Lemma digits_prefix_inj x x' c c' r r' :
  digits_only x = true -> digits_only x' = true ->
  Str.is_digit c = false -> Str.is_digit c' = false ->
  x +:+ String c r = x' +:+ String c' r' -> x = x' /\ r = r'.
Proof.
  revert x'. induction x as [|d x IH]; intros [|d' x']; simpl;
    intros Hx Hx' Hc Hc' Heq.
  - by injection Heq as _ ->.
  - injection Heq as -> _. apply andb_true_iff in Hx' as [Hd _]. congruence.
  - injection Heq as -> _. apply andb_true_iff in Hx as [Hd _]. congruence.
  - injection Heq as -> Heq.
    apply andb_true_iff in Hx as [_ Hx]. apply andb_true_iff in Hx' as [_ Hx'].
    destruct (IH x' Hx Hx' Hc Hc' Heq) as [-> ->]. done.
Qed.

Lemma json_name_inj i j : json_name i = json_name j -> i = j.
Proof.
  unfold json_name. intros Heq. simpl in Heq.
  injection Heq as Heq.
  apply digits_prefix_inj in Heq as [_ Heq];
    [|apply of_nat_digits..|done|done].
  change ".json" with (String "." "json") in Heq.
  apply digits_prefix_inj in Heq as [Heq _];
    [|apply of_nat_digits..|done|done].
  by apply of_nat_inj.
Qed.

Lemma json_path_str i : Path.str (json_path i) = "json_dir/" +:+ json_name i.
Proof. reflexivity. Qed.

Lemma json_path_inj i j :
  Path.str (json_path i) = Path.str (json_path j) -> i = j.
Proof.
  rewrite !json_path_str. intros Heq. apply json_name_inj.
  generalize dependent (json_name j). generalize (json_name i).
  intros x y [= Heq]. by simpl in Heq.
Qed.

Lemma yuv_file_str image :
  Path.str (yuv_file_of image) = "yuv_dir/" +:+ Path.stem image +:+ ".yuv".
Proof. reflexivity. Qed.

Lemma rfind_dot_from_none k k' s :
  Str.rfind_dot_from k s = None -> Str.rfind_dot_from k' s = None.
Proof.
  revert k k'. induction s as [|c s IH]; intros k k'; simpl; [done|].
  destruct (Str.rfind_dot_from (S k) s) eqn:Hs; [done|].
  rewrite (IH _ (S k') Hs). by destruct (Ascii.eqb c ".").
Qed.

Lemma app_empty_l s : "" +:+ s = s.
Proof. reflexivity. Qed.

Lemma app_cons c s1 s2 : String c s1 +:+ s2 = String c (s1 +:+ s2).
Proof. reflexivity. Qed.

Lemma rfind_dot_from_suffix k base ext :
  Str.rfind_dot ext = None ->
  Str.rfind_dot_from k (base +:+ "." +:+ ext) = Some (k + String.length base).
Proof.
  intros Hext. revert k. induction base as [|c base IH]; intros k.
  - rewrite app_empty_l, app_cons, app_empty_l. simpl.
    rewrite (rfind_dot_from_none 0 (S k) ext Hext). f_equal. lia.
  - rewrite app_cons. simpl. rewrite (IH (S k)). f_equal. lia.
Qed.

Lemma substring_prefix base rest :
  substring 0 (String.length base) (base +:+ rest) = base.
Proof.
  induction base as [|c base IH]; [by destruct rest|].
  rewrite app_cons. simpl. by rewrite IH.
Qed.

Lemma length_app_string s1 s2 :
  String.length (s1 +:+ s2) = String.length s1 + String.length s2.
Proof. induction s1; [done|]. rewrite app_cons. simpl. auto. Qed.

(** The stem of [base.ext] is [base], for a non-empty [base] and a
    non-empty [ext] without a dot. *)
Lemma stem_base_ext base ext :
  base <> "" -> ext <> "" -> Str.rfind_dot ext = None ->
  Path.stem (base +:+ "." +:+ ext) = base.
Proof.
  intros Hbase Hext Hdot. unfold Path.stem, Str.rfind_dot.
  rewrite (rfind_dot_from_suffix 0 base ext Hdot). simpl.
  rewrite length_app_string.
  replace (String.length ("." +:+ ext)) with (S (String.length ext))
    by reflexivity.
  assert (0 < String.length base) by (destruct base; [done|simpl; lia]).
  assert (0 < String.length ext) by (destruct ext; [done|simpl; lia]).
  destruct (Nat.ltb_spec 0 (String.length base)); [|lia].
  destruct (Nat.ltb_spec (String.length base)
              (String.length base + S (String.length ext) - 1)); [|lia].
  simpl. apply substring_prefix.
Qed.

(** ** Reading a trace *)

Lemma entry_lookup (images : list string) i :
  i < length images -> images !! i = Some (entry images i).
Proof.
  intros [x Hx]%lookup_lt_is_Some_2. unfold entry. by rewrite Hx.
Qed.

Lemma commands_app t1 t2 : commands (t1 ++ t2) = commands t1 ++ commands t2.
Proof. apply omap_app. Qed.

Lemma commands_conversions image_dir images :
  commands (map (conversion_event image_dir) images)
  = map (fun image => ffmpeg_command (Path.str (Path.div image_dir image))
                                     (Path.str (yuv_file_of image))) images.
Proof. induction images; simpl; [done|by f_equal]. Qed.

Lemma commands_comparisons exe images indices docs :
  length docs = length indices ->
  commands (concat (zip_with (comparison_events exe images) indices docs))
  = map (comparison_command exe images) indices.
Proof.
  revert docs. induction indices as [|i indices IH]; intros [|doc docs];
    simpl; try done.
  intros [= Hlen]. unfold commands in *. simpl. f_equal. by apply IH.
Qed.

Lemma commands_report output_csv rows :
  commands (report_events output_csv rows) = [].
Proof. unfold report_events. simpl. induction rows; simpl; auto. Qed.

Lemma rows_written_app t1 t2 :
  rows_written (t1 ++ t2) = rows_written t1 ++ rows_written t2.
Proof. apply omap_app. Qed.

Lemma rows_written_conversions image_dir images :
  rows_written (map (conversion_event image_dir) images) = [].
Proof. induction images; simpl; auto. Qed.

Lemma rows_written_comparisons exe images indices docs :
  rows_written (concat (zip_with (comparison_events exe images) indices docs)) = [].
Proof.
  revert docs. induction indices as [|i indices IH]; intros [|doc docs];
    simpl; done.
Qed.

Lemma rows_written_report output_csv rows :
  rows_written (report_events output_csv rows) = map VStr fieldnames :: rows.
Proof.
  unfold report_events, rows_written. simpl. f_equal.
  induction rows; simpl; by f_equal.
Qed.

Lemma csv_after_app t1 t2 files :
  csv_after (t1 ++ t2) files = csv_after t2 (csv_after t1 files).
Proof. apply foldl_app. Qed.

Lemma csv_after_rows path rows (files : gmap string (list (list value))) acc :
  files !! path = Some acc ->
  csv_after (map (fun row => EWriteRow path row (Ok tt)) rows) files !! path
  = Some (acc ++ rows).
Proof.
  revert files acc. induction rows as [|row rows IH]; intros files acc Hacc; simpl.
  - by rewrite app_nil_r.
  - unfold csv_after in *. simpl. rewrite (IH _ (acc ++ [row])).
    + by rewrite <- app_assoc.
    + by rewrite lookup_alter_eq, Hacc.
Qed.

Lemma csv_after_report output_csv rows files :
  csv_after (report_events output_csv rows) files !! Path.str output_csv
  = Some (map VStr fieldnames :: rows).
Proof.
  unfold report_events.
  change (csv_after (?e1 :: ?e2 :: ?t) files)
    with (csv_after t (csv_step (csv_step files e1) e2)).
  rewrite (csv_after_rows _ rows _ [map VStr fieldnames]); [done|].
  simpl. by rewrite lookup_alter_eq, lookup_insert_eq.
Qed.

(** ** The pipeline of a run that completes *)

Section Pipeline.
Context {World : Type} (sys : os World).

Lemma main_ok_commands a w w1 listing images u w' t :
  os_listdir sys (Path.str (directory a)) w = (Ok listing, w1) ->
  get_sorted_image_list listing (pic_ext a) = Ok images ->
  2 <= length images ->
  main sys a w = (Ok u, w', t) ->
  commands t
  = map (fun image => ffmpeg_command (Path.str (Path.div (directory a) image))
                                     (Path.str (yuv_file_of image))) images
    ++ map (comparison_command (vmaf_exe a) images) (seq 1 (length images - 1)).
Proof.
  intros Hls Himages Hlen Hmain.
  destruct (main_ok_trace sys a w w1 listing images u w' t Hls Himages Hlen Hmain)
    as (docs & scores & Hscores & Hdocs & ->).
  rewrite !commands_app, commands_conversions, commands_comparisons,
    commands_report by (by rewrite length_seq).
  simpl. by rewrite app_nil_r.
Qed.

Lemma main_ok_rows a w w1 listing images u w' t :
  os_listdir sys (Path.str (directory a)) w = (Ok listing, w1) ->
  get_sorted_image_list listing (pic_ext a) = Ok images ->
  2 <= length images ->
  main sys a w = (Ok u, w', t) ->
  exists scores,
    length scores = length images - 1 /\
    rows_written t
    = map VStr fieldnames
      :: zip_with (comparison_row images) (seq 1 (length images - 1)) scores.
Proof.
  intros Hls Himages Hlen Hmain.
  destruct (main_ok_trace sys a w w1 listing images u w' t Hls Himages Hlen Hmain)
    as (docs & scores & Hscores & Hdocs & ->).
  exists scores. split.
  - by rewrite <- (Forall2_length _ _ _ Hscores).
  - rewrite !rows_written_app, rows_written_conversions,
      rows_written_comparisons, rows_written_report.
    simpl. by rewrite app_nil_r.
Qed.

End Pipeline.

(** ** Every run follows the pipeline *)

Section Emits.
Context {World : Type} (sys : os World).

Lemma emits_eq {A} (m : M World A) cs cs' : cs = cs' -> emits m cs -> emits m cs'.
Proof. by intros ->. Qed.

Lemma emits_ret {A} (a : A) : emits (ret a : M World A) [].
Proof. by intros w r w' t [= <- <- <-]. Qed.

Lemma emits_lift {A} (x : result A) : emits (lift x : M World A) [].
Proof. by intros w r w' t [= <- <- <-]. Qed.

Lemma emits_print line : emits (print line : M World unit) [].
Proof. by intros w r w' t [= <- <- <-]. Qed.

Lemma emits_call {A} (f : World -> result A * World) ev :
  (forall x, no_run (ev x)) -> emits (call f ev) [].
Proof.
  intros Hev w r w' t [_ ->]%call_inv. specialize (Hev r).
  unfold commands. simpl. by destruct (ev r).
Qed.

Lemma emits_subprocess_run_check cmd : emits (subprocess_run_check sys cmd) [cmd].
Proof. by intros w r w' t (rc & _ & -> & _)%subprocess_run_check_inv. Qed.

Lemma emits_bind {A B} (m : M World A) (k : A -> M World B) cs1 cs2 :
  emits m cs1 -> (forall a, returns m a -> emits (k a) cs2) ->
  emits (bind m k) (cs1 ++ cs2).
Proof.
  intros Hm Hk w r w' t
    [(e & Hrun & ->)|(a & w1 & t1 & t2 & Hrun & Hrest & ->)]%bind_inv.
  - destruct (Hm _ _ _ _ Hrun) as [Hpre _]. split; [|done].
    by apply prefix_app_r.
  - destruct (Hm _ _ _ _ Hrun) as [_ Hall].
    destruct (Hk a (ex_intro _ w (ex_intro _ w1 (ex_intro _ t1 Hrun)))
                _ _ _ _ Hrest) as [Hpre Hall2].
    rewrite commands_app, (Hall a eq_refl). split.
    + by apply prefix_app.
    + intros b Hb. by rewrite (Hall2 b Hb).
Qed.

Lemma emits_for_each {A B} (body : A -> M World B) (c : A -> list string) l :
  (forall x, emits (body x) [c x]) -> emits (for_each body l) (map c l).
Proof.
  intros Hbody. induction l as [|x l IH]; simpl; [apply emits_ret|].
  apply (emits_bind _ _ [c x] (map c l)); [done|]. intros y _.
  apply (emits_eq _ (map c l ++ [])); [by rewrite app_nil_r|].
  apply emits_bind; [done|]. intros ys _. apply emits_ret.
Qed.

Lemma emits_convert_image image_dir image :
  emits (convert_image sys image_dir image)
        [ffmpeg_command (Path.str (Path.div image_dir image))
                        (Path.str (yuv_file_of image))].
Proof.
  eapply emits_eq; [|apply emits_bind].
  - apply app_nil_r.
  - apply emits_subprocess_run_check.
  - intros _ _. apply emits_ret.
Qed.

Lemma emits_compare_yuv_files exe f1 f2 path :
  emits (compare_yuv_files sys exe f1 f2 path) [vmaf_command exe f1 f2 path].
Proof.
  apply (emits_eq _ ([] ++ [vmaf_command exe f1 f2 path] ++ [] ++ [] ++ []));
    [done|].
  apply emits_bind; [apply emits_print|]. intros _ _.
  apply emits_bind; [apply emits_subprocess_run_check|]. intros _ _.
  apply emits_bind; [by apply emits_call|]. intros doc _.
  apply emits_bind; [apply emits_lift|]. intros score _. apply emits_ret.
Qed.

Lemma returns_lift {A} (x : result A) (a : A) :
  returns (lift x : M World A) a -> x = Ok a.
Proof. by intros (w & w1 & t1 & [= ->]). Qed.

Lemma emits_compare_pair exe images i :
  emits (compare_pair sys exe images (map yuv_file_of images) i)
        [comparison_command exe images i].
Proof.
  apply (emits_eq _ ([] ++ [] ++ [comparison_command exe images i]
                     ++ [] ++ [] ++ [])); [done|].
  apply emits_bind; [apply emits_lift|]. intros f1 ->%returns_lift%index_map_inv.
  apply emits_bind; [apply emits_lift|]. intros f2 ->%returns_lift%index_map_inv.
  apply emits_bind; [apply emits_compare_yuv_files|]. intros score _.
  apply emits_bind; [apply emits_lift|]. intros im1 _.
  apply emits_bind; [apply emits_lift|]. intros im2 _. apply emits_ret.
Qed.

Lemma emits_for_each_nil {A B} (body : A -> M World B) l :
  (forall x, emits (body x) []) -> emits (for_each body l) [].
Proof.
  intros Hbody. induction l as [|x l IH]; simpl; [apply emits_ret|].
  apply (emits_bind _ _ [] []); [done|]. intros y _.
  apply (emits_bind _ _ [] []); [done|]. intros ys _. apply emits_ret.
Qed.

Lemma emits_write_csv output_csv rowdicts :
  emits (write_csv sys output_csv rowdicts) [].
Proof.
  apply (emits_bind _ _ [] []); [by apply emits_call|]. intros _ _.
  apply (emits_bind _ _ [] []); [by apply emits_call|]. intros _ _.
  apply (emits_bind _ _ [] []); [|intros _ _; apply emits_ret].
  apply emits_for_each_nil. intros rowdict. by apply emits_call.
Qed.

(** The processes of any run on two images or more, whether it completes
    or not, are the first of: the conversions, image by image, then the
    comparisons, pair by pair. *)
Lemma main_commands_prefix a w w1 listing images r w' t :
  os_listdir sys (Path.str (directory a)) w = (Ok listing, w1) ->
  get_sorted_image_list listing (pic_ext a) = Ok images ->
  2 <= length images ->
  main sys a w = (r, w', t) ->
  commands t `prefix_of`
    map (fun image => ffmpeg_command (Path.str (Path.div (directory a) image))
                                     (Path.str (yuv_file_of image))) images
    ++ map (comparison_command (vmaf_exe a) images) (seq 1 (length images - 1)).
Proof.
  intros Hls Himages Hlen. unfold main.
  intros [(e & [Hls' _]%call_inv & _)
         |(listing' & ? & t1 & t2 & [Hls' ->]%call_inv & Hrest & ->)]%bind_inv;
    rewrite Hls in Hls'; [done|]. injection Hls' as -> ->.
  apply bind_inv in Hrest
      as [(e & (Himages' & _)%lift_inv & _)
         |(images' & ? & t1 & t3 & (Himages' & -> & ->)%lift_inv & Hrest & ->)];
    rewrite Himages in Himages'; [done|]. injection Himages' as ->.
  destruct (Nat.ltb_spec (length images) 2) as [|_]; [lia|].
  change (commands (?e :: [] ++ t3)) with (commands t3).
  revert Hrest. generalize r w' t3. clear.
  match goal with
  | |- forall r w' t, ?m ?x = _ -> _ `prefix_of` ?cs =>
      intros r w' t Hrest; cut (emits m cs);
        [by intros Hm; destruct (Hm _ _ _ _ Hrest)|]
  end.
  apply (emits_eq _ ([] ++ [] ++
           map (fun image =>
                  ffmpeg_command (Path.str (Path.div (directory a) image))
                                 (Path.str (yuv_file_of image))) images
           ++ map (comparison_command (vmaf_exe a) images)
                  (seq 1 (length images - 1)) ++ [] ++ []));
    [by rewrite !app_nil_r|].
  apply emits_bind; [by apply emits_call|]. intros _ _.
  apply emits_bind; [by apply emits_call|]. intros _ _.
  apply emits_bind.
  { apply emits_for_each. intros image. apply emits_convert_image. }
  intros yuv_files (w2 & w3 & t4 & [-> _]%conversions_ok_inv).
  rewrite length_map. apply emits_bind.
  { apply emits_for_each. intros i. apply emits_compare_pair. }
  intros comparison_results _.
  apply emits_bind; [apply emits_write_csv|].
  intros _ _. apply emits_print.
Qed.

End Emits.

(** C2. In a run on [N >= 2] listed images, the processes started are the
    first of the following, in this order: the [N] conversions, then [N-1]
    runs of the scoring tool, one for each [i] from 1 to [N-1] in increasing
    order, the [i]-th getting the converted frame of [images[i-1]] as
    reference, that of [images[i]] as distorted, and the result file
    [json_path i], which is a different path for every [i].  A run that
    completes starts all of them, so the Comparator is called exactly [N-1]
    times, and the rows it writes after the header are [N-1], the [i]-th
    naming [images[i-1]] and [images[i]]. *)
Theorem comparator_called_for_each_adjacent_pair {World} (sys : os World)
    (a : args) (w w1 w' : World) (listing images : list string)
    (r : result unit) (t : list event)
    (Hls : os_listdir sys (Path.str (directory a)) w = (Ok listing, w1))
    (Himages : get_sorted_image_list listing (pic_ext a) = Ok images)
    (Hlen : 2 <= length images)
    (Hmain : main sys a w = (r, w', t)) :
  commands t `prefix_of`
    map (fun image => ffmpeg_command (Path.str (Path.div (directory a) image))
                                     (Path.str (yuv_file_of image))) images
    ++ map (fun i => vmaf_command (vmaf_exe a)
                       (Path.str (yuv_file_of (entry images (i - 1))))
                       (Path.str (yuv_file_of (entry images i)))
                       (Path.str (json_path i)))
           (seq 1 (length images - 1)) /\
  (forall i, i < length images -> images !! i = Some (entry images i)) /\
  (forall i j, Path.str (json_path i) = Path.str (json_path j) -> i = j) /\
  (forall u, r = Ok u ->
     commands t
     = map (fun image => ffmpeg_command (Path.str (Path.div (directory a) image))
                                        (Path.str (yuv_file_of image))) images
       ++ map (fun i => vmaf_command (vmaf_exe a)
                          (Path.str (yuv_file_of (entry images (i - 1))))
                          (Path.str (yuv_file_of (entry images i)))
                          (Path.str (json_path i)))
              (seq 1 (length images - 1)) /\
     exists scores,
       length scores = length images - 1 /\
       rows_written t
       = map VStr fieldnames
         :: zip_with (fun i score =>
                        [VStr (entry images (i - 1)); VStr (entry images i); score])
                     (seq 1 (length images - 1)) scores).
Proof.
  split_and!.
  - by apply (main_commands_prefix sys a w w1 listing images r w' t).
  - apply entry_lookup.
  - apply json_path_inj.
  - intros u ->. split.
    + by apply (main_ok_commands sys a w w1 listing images u w' t).
    + by apply (main_ok_rows sys a w w1 listing images u w' t).
Qed.

Lemma three_images_main :
  main (stub_os three_images) png_args tt = (Ok tt, tt, three_images_run).
Proof. by vm_compute. Qed.

Lemma comparator_called_for_each_adjacent_pair_witness :
  commands three_images_run
  = [ffmpeg_command "pics/a1.png" "yuv_dir/a1.yuv";
     ffmpeg_command "pics/a2.png" "yuv_dir/a2.yuv";
     ffmpeg_command "pics/a3.png" "yuv_dir/a3.yuv";
     vmaf_command "/home/user/bin/vmaf" "yuv_dir/a1.yuv" "yuv_dir/a2.yuv"
                  "json_dir/compare_0_1.json";
     vmaf_command "/home/user/bin/vmaf" "yuv_dir/a2.yuv" "yuv_dir/a3.yuv"
                  "json_dir/compare_1_2.json"] /\
  exists scores,
    length scores = 2 /\
    rows_written three_images_run
    = [VStr "Image 1"; VStr "Image 2"; VStr "VMAF Score"]
      :: zip_with (fun i score =>
                     [VStr (entry ["a1.png"; "a2.png"; "a3.png"] (i - 1));
                      VStr (entry ["a1.png"; "a2.png"; "a3.png"] i); score])
                  [1; 2] scores.
Proof.
  destruct (comparator_called_for_each_adjacent_pair (stub_os three_images)
              png_args tt tt tt (stub_listing three_images)
              ["a1.png"; "a2.png"; "a3.png"] (Ok tt) three_images_run)
    as (_ & _ & _ & Hcompleted).
  - reflexivity.
  - by vm_compute.
  - simpl. lia.
  - exact three_images_main.
  - exact (Hcompleted tt eq_refl).
Defined.

Section Converter.
Context {World : Type} (sys : os World).

Lemma conversion_command_eq image_dir image :
  ffmpeg_command (Path.str (Path.div image_dir image))
                 (Path.str (yuv_file_of image))
  = conversion_command image_dir image.
Proof. unfold ffmpeg_command, conversion_command. by rewrite yuv_file_str. Qed.

(** The Converter is one run of the conversion tool. *)
Lemma convert_to_yuv_inv image_path yuv_path w r w' t :
  convert_to_yuv sys image_path yuv_path w = (r, w', t) ->
  exists rc,
    os_run sys (ffmpeg_command image_path yuv_path) w = (rc, w') /\
    t = [ERun (ffmpeg_command image_path yuv_path) rc] /\
    (r = Ok tt <-> rc = Ok 0%Z) /\
    (forall x, r = Raise x ->
               failure (ERun (ffmpeg_command image_path yuv_path) rc) = Some x).
Proof.
  intros (rc & Hrun & -> & ->)%subprocess_run_check_inv.
  exists rc. split_and!; [done|done| |].
  - destruct rc as [c|e]; [|done].
    destruct (Z.eqb_spec c 0) as [->|Hc]; [done|].
    split; [done|]. by intros [= ->].
  - intros x. destruct rc as [c|e]; simpl; [|by intros [= ->]].
    destruct (c =? 0)%Z; [done|]. by intros [= ->].
Qed.

Lemma convert_image_raise_inv image_dir image w (x : exn) w' t :
  convert_image sys image_dir image w = (Raise x, w', t) ->
  exists rc,
    t = [ERun (conversion_command image_dir image) rc] /\
    failure (ERun (conversion_command image_dir image) rc) = Some x.
Proof.
  unfold convert_image.
  intros [(e & (rc & _ & -> & _ & Hfail)%convert_to_yuv_inv & [= <-])
         |(? & ? & ? & ? & _ & [=] & _)]%bind_inv.
  exists rc. rewrite <- conversion_command_eq. by split; [|apply Hfail].
Qed.

(** The conversion loop either converts every picture, or stops at the
    conversion that fails. *)
Lemma conversions_inv image_dir images w r w' t :
  for_each (convert_image sys image_dir) images w = (r, w', t) ->
  commands t = map (conversion_command image_dir) images \/
  exists x t0 image rc,
    r = Raise x /\ image ∈ images /\
    t = t0 ++ [ERun (conversion_command image_dir image) rc] /\
    failure (ERun (conversion_command image_dir image) rc) = Some x.
Proof.
  revert w r w' t. induction images as [|image images IH]; intros w r w' t.
  - intros [= <- <- <-]. by left.
  - simpl.
    intros [(x & (rc & -> & Hfail)%convert_image_raise_inv & ->)
           |(y & w1 & t1 & t2 & [-> ->]%convert_image_ok_inv & Hrest & ->)]
           %bind_inv.
    + right. exists x, [], image, rc. split_and!; [done|left|done|done].
    + apply bind_inv in Hrest
          as [(x & Hloop & ->)
             |(ys & w2 & t3 & t4 & Hloop & [= <- <- <-] & ->)].
      * apply IH in Hloop
            as [Hall|(x' & t0 & image' & rc & [= <-] & Hin & -> & Hfail)].
        { left. rewrite commands_app, Hall. simpl.
          by rewrite conversion_command_eq. }
        right. exists x, (conversion_event image_dir image :: t0), image', rc.
        split_and!; [done|by right|done|done].
      * apply IH in Hloop as [Hall|(x' & ? & ? & ? & [=] & _)].
        left. rewrite app_nil_r, commands_app, Hall. simpl.
        by rewrite conversion_command_eq.
Qed.

(** A run on two images or more converts every picture, unless it stops
    earlier at a working directory that cannot be made or at a conversion
    that fails. *)
Lemma main_conversions a w w1 listing images r w' t :
  os_listdir sys (Path.str (directory a)) w = (Ok listing, w1) ->
  get_sorted_image_list listing (pic_ext a) = Ok images ->
  2 <= length images ->
  main sys a w = (r, w', t) ->
  (exists rest,
      commands t = map (conversion_command (directory a)) images ++ rest) \/
  exists x t0 e,
    r = Raise x /\ t = t0 ++ [e] /\ failure e = Some x /\
    ((exists dir rd, e = EMkdir dir rd) \/
     exists image rc,
       image ∈ images /\ e = ERun (conversion_command (directory a) image) rc).
Proof.
  intros Hls Himages Hlen. unfold main.
  intros [(e & [Hls' _]%call_inv & _)
         |(listing' & ? & t1 & t2 & [Hls' ->]%call_inv & Hrest & ->)]%bind_inv;
    rewrite Hls in Hls'; [done|]. injection Hls' as <- <-.
  apply bind_inv in Hrest
      as [(e & (Himages' & _)%lift_inv & _)
         |(images' & ? & t1 & t3 & (Himages' & -> & ->)%lift_inv & Hrest & ->)];
    rewrite Himages in Himages'; [done|]. injection Himages' as ->.
  destruct (Nat.ltb_spec (length images) 2) as [|_]; [lia|].
  apply bind_inv in Hrest
      as [(exc & [Hmk ->]%call_inv & ->)
         |([] & w2 & t1 & t4 & [Hmk ->]%call_inv & Hrest & ->)].
  { right. exists exc, [EListdir (Path.str (directory a)) (Ok listing)],
      (EMkdir (Path.str yuv_dir) (Raise exc)).
    split_and!; [done|done|done|]. left. by eexists _, _. }
  apply bind_inv in Hrest
      as [(exc & [Hmk' ->]%call_inv & ->)
         |([] & w3 & t1 & t5 & [Hmk' ->]%call_inv & Hrest & ->)].
  { right. exists exc, [EListdir (Path.str (directory a)) (Ok listing);
                      EMkdir (Path.str yuv_dir) (Ok tt)],
      (EMkdir (Path.str json_dir) (Raise exc)).
    split_and!; [done|done|done|]. left. by eexists _, _. }
  apply bind_inv in Hrest
      as [(exc & Hloop & ->)|(yuv_files & w4 & t1 & t6 & Hloop & Hrest & ->)].
  - apply conversions_inv in Hloop
        as [Hall|(x' & t0 & image & rc & [= <-] & Hin & -> & Hfail)].
    + left. exists []. by rewrite app_nil_r.
    + right. exists exc, ([EListdir (Path.str (directory a)) (Ok listing);
                         EMkdir (Path.str yuv_dir) (Ok tt);
                         EMkdir (Path.str json_dir) (Ok tt)] ++ t0),
        (ERun (conversion_command (directory a) image) rc).
      split_and!; [done|by rewrite <- app_assoc|done|]. right. by exists image, rc.
  - apply conversions_inv in Hloop as [Hall|(x' & ? & ? & ? & [=] & _)].
    left. exists (commands t6).
    rewrite !commands_app, Hall. reflexivity.
Qed.

End Converter.

(** Two runs that the claim as it stands does not cover.  With one listed
    image the run ends cleanly and no process is started at all, so the
    Converter is not called.  With two listed images and the frame of the
    first already there, the conversion tool, which keeps its contract,
    returns 1: the Converter raises, the file is left as it was instead of
    being written anew, and the Converter is never called for the second
    image. *)
Lemma converter_counterexample :
  (get_sorted_image_list (stub_listing one_image) "png" = Ok ["a1.png"] /\
   main (stub_os one_image) png_args tt
   = (Ok tt, tt,
      [EListdir "pics" (Ok ["a1.png"; "readme.md"]);
       EPrint "Not enough images to compare."]) /\
   commands (main (stub_os one_image) png_args tt).2 = []) /\
  (get_sorted_image_list ["a1.png"; "a2.png"] "png" = Ok ["a1.png"; "a2.png"] /\
   (forall src dst w w',
       os_run (keeping_os ["a1.png"; "a2.png"])
              ["ffmpeg"; "-i"; src; "-s"; "1920x1080"; "-pix_fmt"; "yuv422p"; dst]
              w = (Ok 0%Z, w') ->
       w' !! dst = Some src) /\
   frame_left_over !! "yuv_dir/a1.yuv" = Some "old/a1.png" /\
   convert_to_yuv (keeping_os ["a1.png"; "a2.png"])
     "pics/a1.png" "yuv_dir/a1.yuv" frame_left_over
   = (Raise (CalledProcessError 1
               ["ffmpeg"; "-i"; "pics/a1.png"; "-s"; "1920x1080";
                "-pix_fmt"; "yuv422p"; "yuv_dir/a1.yuv"]),
      frame_left_over,
      [ERun ["ffmpeg"; "-i"; "pics/a1.png"; "-s"; "1920x1080";
             "-pix_fmt"; "yuv422p"; "yuv_dir/a1.yuv"] (Ok 1%Z)]) /\
   main (keeping_os ["a1.png"; "a2.png"]) png_args frame_left_over
   = (Raise (CalledProcessError 1
               ["ffmpeg"; "-i"; "pics/a1.png"; "-s"; "1920x1080";
                "-pix_fmt"; "yuv422p"; "yuv_dir/a1.yuv"]),
      frame_left_over,
      [EListdir "pics" (Ok ["a1.png"; "a2.png"]);
       EMkdir "yuv_dir" (Ok tt); EMkdir "json_dir" (Ok tt);
       ERun ["ffmpeg"; "-i"; "pics/a1.png"; "-s"; "1920x1080";
             "-pix_fmt"; "yuv422p"; "yuv_dir/a1.yuv"] (Ok 1%Z)])).
Proof.
  split; [split_and!; by vm_compute|].
  split_and!; [by vm_compute| |by vm_compute..].
  intros src dst w w'. simpl. destruct (w !! dst) eqn:Hdst; [done|].
  intros [= <-]. apply lookup_insert_eq.
Qed.

(** C8, amended. In a run on two listed images or more, the processes
    started are the first of the conversions, one for each listed image in
    the order of the Lister, followed by the comparisons.  Every listed
    image is converted, exactly once, unless the run stops earlier with the
    exception of its last event, which is then a working directory that
    could not be made or the conversion of a listed image that failed.  The
    arguments of a conversion are
    [ffmpeg -i <src> -s 1920x1080 -pix_fmt yuv422p <dst>], where [<src>] is
    the image in its directory and [<dst>] is [yuv_dir/<stem>.yuv], the stem
    of [base.ext] being [base].  The Converter does nothing but run the
    tool with these arguments: it returns exactly when the tool returns 0,
    and then the tool, which makes the file at the destination or returns
    another code, has made the file at the destination, whether or not a
    file was there before; otherwise the Converter raises. *)
Theorem converter_called_once_per_image {World} (sys : os World)
    (made : string -> string -> World -> Prop)
    (a : args) (w w1 w' : World) (listing images : list string)
    (r : result unit) (t : list event)
    (Hls : os_listdir sys (Path.str (directory a)) w = (Ok listing, w1))
    (Himages : get_sorted_image_list listing (pic_ext a) = Ok images)
    (Hlen : 2 <= length images)
    (Hmain : main sys a w = (r, w', t))
    (Htool : forall src dst w0 w0',
        os_run sys ["ffmpeg"; "-i"; src; "-s"; "1920x1080"; "-pix_fmt";
                    "yuv422p"; dst] w0 = (Ok 0%Z, w0') ->
        made src dst w0') :
  commands t `prefix_of`
    map (conversion_command (directory a)) images
    ++ map (comparison_command (vmaf_exe a) images) (seq 1 (length images - 1)) /\
  ((exists rest,
       commands t = map (conversion_command (directory a)) images ++ rest /\
       rest `prefix_of`
         map (comparison_command (vmaf_exe a) images) (seq 1 (length images - 1))) \/
   (exists x t0 e,
       r = Raise x /\ t = t0 ++ [e] /\ failure e = Some x /\
       ((exists dir rd, e = EMkdir dir rd) \/
        exists image rc,
          image ∈ images /\
          e = ERun (conversion_command (directory a) image) rc))) /\
  (forall base ext,
      base <> "" -> ext <> "" -> Str.rfind_dot ext = None ->
      Path.stem (base +:+ "." +:+ ext) = base) /\
  (forall src dst w0 r0 w0' t0,
      convert_to_yuv sys src dst w0 = (r0, w0', t0) ->
      exists rc,
        os_run sys ["ffmpeg"; "-i"; src; "-s"; "1920x1080"; "-pix_fmt";
                    "yuv422p"; dst] w0 = (rc, w0') /\
        t0 = [ERun ["ffmpeg"; "-i"; src; "-s"; "1920x1080"; "-pix_fmt";
                    "yuv422p"; dst] rc] /\
        (r0 = Ok tt <-> rc = Ok 0%Z) /\
        (r0 = Ok tt -> made src dst w0') /\
        (r0 <> Ok tt ->
         exists x, r0 = Raise x /\
           failure (ERun ["ffmpeg"; "-i"; src; "-s"; "1920x1080"; "-pix_fmt";
                          "yuv422p"; dst] rc) = Some x)).
Proof.
  assert (commands t `prefix_of`
            map (conversion_command (directory a)) images
            ++ map (comparison_command (vmaf_exe a) images)
                   (seq 1 (length images - 1))) as Hprefix.
  { pose proof (main_commands_prefix sys a w w1 listing images r w' t
                  Hls Himages Hlen Hmain) as Hp.
    erewrite map_ext in Hp; [exact Hp|].
    intros image. apply conversion_command_eq. }
  split_and!.
  - exact Hprefix.
  - destruct (main_conversions sys a w w1 listing images r w' t
                Hls Himages Hlen Hmain) as [[rest Hrest]|Hstop]; [left|by right].
    exists rest. split; [done|]. rewrite Hrest in Hprefix.
    by apply prefix_app_inv in Hprefix.
  - apply stem_base_ext.
  - intros src dst w0 r0 w0' t0
      (rc & Hrun & -> & Hiff & Hfail)%convert_to_yuv_inv.
    exists rc. split_and!; [done|done|done| |].
    + intros Hrc%Hiff. subst rc. by apply (Htool src dst w0).
    + destruct r0 as [[]|x]; [done|]. intros _. exists x. split; [done|].
      by apply Hfail.
Qed.

Lemma converter_called_once_per_image_witness :
  commands first_run `prefix_of`
    map (conversion_command (Path.of_name "pics")) ["a1.png"; "a2.png"]
    ++ map (comparison_command "/home/user/bin/vmaf" ["a1.png"; "a2.png"]) [1] /\
  (exists rest,
      commands first_run
      = map (conversion_command (Path.of_name "pics")) ["a1.png"; "a2.png"]
        ++ rest /\
      rest `prefix_of`
        map (comparison_command "/home/user/bin/vmaf" ["a1.png"; "a2.png"]) [1]).
Proof.
  destruct (converter_called_once_per_image (keeping_os ["a1.png"; "a2.png"])
              (fun src dst files => files !! dst = Some src)
              png_args ∅ ∅
              (main (keeping_os ["a1.png"; "a2.png"]) png_args ∅).1.2
              ["a1.png"; "a2.png"] ["a1.png"; "a2.png"] (Ok tt) first_run)
    as (Hprefix & [Hall|(x & _ & _ & [=] & _)] & _).
  - reflexivity.
  - by vm_compute.
  - simpl. lia.
  - by vm_compute.
  - intros src dst w0 w0'. simpl. destruct (w0 !! dst) eqn:Hdst; [done|].
    intros [= <-]. apply lookup_insert_eq.
  - by split.
Defined.

(** A run that prints its last message had two images or more. *)
Lemma main_completed_length {World} (sys : os World) a w w1 listing images
    (r : result unit) w' t :
  os_listdir sys (Path.str (directory a)) w = (Ok listing, w1) ->
  get_sorted_image_list listing (pic_ext a) = Ok images ->
  main sys a w = (r, w', t) ->
  completed (output a) ∈ t ->
  2 <= length images.
Proof.
  intros Hls Himages Hmain Hdone.
  destruct (Nat.le_gt_cases 2 (length images)) as [|Hfew]; [done|].
  rewrite (main_not_enough sys a w w1 listing images Hls Himages Hfew) in Hmain.
  injection Hmain as <- <- <-.
  apply elem_of_cons in Hdone as [[=]|Hdone].
  apply list_elem_of_singleton in Hdone. by injection Hdone.
Qed.

(** C9. A successful run, one that returns after printing its last message,
    [Comparison completed. Results saved to <output>], ends by opening the
    output file for writing, which empties it if it was there, writing the
    header [Image 1, Image 2, VMAF Score], then one row per comparison, in
    the order in which the comparisons were made, each with the score that
    comparison returned; then it prints its last message.  Afterwards the
    file holds the header and these rows, whatever it held before.  With
    [a1.png], [a2.png], [a3.png] and the scores 90.0 and 95.5 the rows are
    [(a1.png, a2.png, 90.0)] and [(a2.png, a3.png, 95.5)]. *)
Theorem reporter_writes_header_and_rows {World} (sys : os World)
    (a : args) (w w1 w' : World) (listing images : list string) (u : unit)
    (t : list event)
    (Hls : os_listdir sys (Path.str (directory a)) w = (Ok listing, w1))
    (Himages : get_sorted_image_list listing (pic_ext a) = Ok images)
    (Hmain : main sys a w = (Ok u, w', t))
    (Hdone : completed (output a) ∈ t) :
  (exists docs scores,
      Forall2 (fun doc score => vmaf_score_of doc = Ok score) docs scores /\
      length scores = length images - 1 /\
      t = [EListdir (Path.str (directory a)) (Ok listing);
           EMkdir "yuv_dir" (Ok tt); EMkdir "json_dir" (Ok tt)]
          ++ map (conversion_event (directory a)) images
          ++ concat (zip_with (comparison_events (vmaf_exe a) images)
                              (seq 1 (length images - 1)) docs)
          ++ [EOpenW (Path.str (output a)) (Ok tt);
              EWriteRow (Path.str (output a))
                [VStr "Image 1"; VStr "Image 2"; VStr "VMAF Score"] (Ok tt)]
          ++ map (fun row => EWriteRow (Path.str (output a)) row (Ok tt))
                 (zip_with (comparison_row images)
                           (seq 1 (length images - 1)) scores)
          ++ [completed (output a)] /\
      forall files,
        csv_after t files !! Path.str (output a)
        = Some ([VStr "Image 1"; VStr "Image 2"; VStr "VMAF Score"]
                :: zip_with (comparison_row images)
                            (seq 1 (length images - 1)) scores)) /\
  csv_after three_images_run {[ "comparison.csv" := [[VStr "stale"]] ]}
    !! "comparison.csv"
  = Some [[VStr "Image 1"; VStr "Image 2"; VStr "VMAF Score"];
          [VStr "a1.png"; VStr "a2.png"; VFloat 90.0];
          [VStr "a2.png"; VStr "a3.png"; VFloat 95.5]].
Proof.
  split; [|by vm_compute].
  pose proof (main_completed_length sys a w w1 listing images _ w' t
                Hls Himages Hmain Hdone) as Hlen.
  destruct (main_ok_trace sys a w w1 listing images u w' t Hls Himages Hlen Hmain)
    as (docs & scores & Hscores & Hdocs & ->).
  exists docs, scores. split_and!; [done| |done|].
  - by rewrite <- (Forall2_length _ _ _ Hscores).
  - intros files. rewrite !csv_after_app.
    change (csv_after [completed (output a)] ?f) with f.
    apply csv_after_report.
Qed.

Lemma reporter_writes_header_and_rows_witness :
  exists scores,
    length scores = 2 /\
    forall files,
      csv_after three_images_run files !! "comparison.csv"
      = Some ([VStr "Image 1"; VStr "Image 2"; VStr "VMAF Score"]
              :: zip_with (comparison_row ["a1.png"; "a2.png"; "a3.png"])
                          [1; 2] scores).
Proof.
  destruct (proj1 (reporter_writes_header_and_rows (stub_os three_images)
                     png_args tt tt tt (stub_listing three_images)
                     ["a1.png"; "a2.png"; "a3.png"] tt three_images_run
                     eq_refl ltac:(by vm_compute) three_images_main
                     ltac:(apply list_elem_of_In; vm_compute;
                           repeat (first [left; reflexivity | right]))))
    as (docs & scores & _ & Hlen & _ & Hfile).
  exists scores. split; [exact Hlen|exact Hfile].
Defined.

(** ** A tool that fails *)

Section Failure.
Context {World : Type} (sys : os World).

Lemma aborted_ok {A} (a : A) t : ~ aborted (Ok a) t.
Proof. by intros (t0 & cmd & rc & _ & _ & _ & _ & [=]). Qed.

Lemma aborted_app {A} (r : result A) t1 t2 :
  Forall no_csv t1 -> Forall run_ok t1 -> aborted r t2 -> aborted r (t1 ++ t2).
Proof.
  intros Hcsv Hok (t0 & cmd & rc & -> & Hrc & Hok0 & Hcsv2 & ->).
  exists (t1 ++ t0), cmd, rc. split_and!; [by rewrite app_assoc|done| | |done].
  - by apply Forall_app.
  - by apply Forall_app.
Qed.

Lemma aborted_raise {A B} e t : aborted (@Raise A e) t -> aborted (@Raise B e) t.
Proof.
  intros (t0 & cmd & rc & -> & Hrc & Hok0 & Hcsv & [= ->]).
  by exists t0, cmd, rc.
Qed.

Lemma guarded_sound {A} (m : M World A) : guarded m -> sound m.
Proof. intros Hm w r w' t Hrun. by destruct (Hm w r w' t Hrun). Qed.

Lemma quiet_sound {A} (m : M World A) : quiet m -> sound m.
Proof.
  intros Hm w r w' t Hrun. left.
  eapply Forall_impl; [by eapply Hm|]. by intros [].
Qed.

Lemma guarded_ret {A} (a : A) : guarded (ret a : M World A).
Proof. intros w r w' t [= <- <- <-]. split; [|left]; constructor. Qed.

Lemma guarded_lift {A} (x : result A) : guarded (lift x : M World A).
Proof. intros w r w' t [= <- <- <-]. split; [|left]; constructor. Qed.

Lemma guarded_print line : guarded (print line : M World unit).
Proof. intros w r w' t [= <- <- <-]. split; [|left]; by repeat constructor. Qed.

Lemma guarded_call {A} (f : World -> result A * World) ev :
  (forall x, no_csv (ev x) /\ run_ok (ev x)) -> guarded (call f ev).
Proof.
  intros Hev w r w' t [_ ->]%call_inv. destruct (Hev r).
  split; [|left]; by repeat constructor.
Qed.

Lemma sound_bind {A B} (m : M World A) (k : A -> M World B) :
  guarded m -> (forall a, sound (k a)) -> sound (bind m k).
Proof.
  intros Hm Hk w r w' t
    [(e & Hrun & ->)|(a & w1 & t1 & t2 & Hrun & Hrest & ->)]%bind_inv.
  - destruct (Hm _ _ _ _ Hrun) as [_ [Hok|Hab]]; [by left|right].
    by apply (@aborted_raise A B).
  - destruct (Hm _ _ _ _ Hrun) as [Hcsv [Hok|Hab]];
      [|by apply aborted_ok in Hab].
    destruct (Hk a _ _ _ _ Hrest) as [Hok2|Hab2].
    + left. by apply Forall_app.
    + right. by apply aborted_app.
Qed.

Lemma guarded_bind {A B} (m : M World A) (k : A -> M World B) :
  guarded m -> (forall a, guarded (k a)) -> guarded (bind m k).
Proof.
  intros Hm Hk w r w' t Hrun. split.
  - apply bind_inv in Hrun
        as [(e & Hrun & ->)|(a & w1 & t1 & t2 & Hrun & Hrest & ->)].
    + by destruct (Hm _ _ _ _ Hrun).
    + apply Forall_app. split; [by destruct (Hm _ _ _ _ Hrun)|].
      by destruct (Hk a _ _ _ _ Hrest).
  - revert w r w' t Hrun. apply sound_bind; [done|].
    intros a. apply guarded_sound, Hk.
Qed.

Lemma guarded_for_each {A B} (body : A -> M World B) l :
  (forall x, guarded (body x)) -> guarded (for_each body l).
Proof.
  intros Hbody. induction l as [|x l IH]; simpl; [apply guarded_ret|].
  apply guarded_bind; [done|]. intros y.
  apply guarded_bind; [done|]. intros ys. apply guarded_ret.
Qed.

Lemma guarded_subprocess_run_check cmd : guarded (subprocess_run_check sys cmd).
Proof.
  intros w r w' t (rc & _ & -> & ->)%subprocess_run_check_inv.
  split; [by repeat constructor|].
  destruct rc as [c|e]; [|left; by repeat constructor].
  destruct (Z.eqb_spec c 0) as [->|Hc]; [left; by repeat constructor|].
  right. exists [], cmd, c. split_and!; by repeat constructor.
Qed.

Lemma guarded_convert_image image_dir image :
  guarded (convert_image sys image_dir image).
Proof.
  apply guarded_bind; [apply guarded_subprocess_run_check|].
  intros _. apply guarded_ret.
Qed.

Lemma guarded_compare_yuv_files exe f1 f2 path :
  guarded (compare_yuv_files sys exe f1 f2 path).
Proof.
  apply guarded_bind; [apply guarded_print|]. intros _.
  apply guarded_bind; [apply guarded_subprocess_run_check|]. intros _.
  apply guarded_bind; [by apply guarded_call|]. intros doc.
  apply guarded_bind; [apply guarded_lift|]. intros score. apply guarded_ret.
Qed.

Lemma guarded_compare_pair exe images yuv_files i :
  guarded (compare_pair sys exe images yuv_files i).
Proof.
  apply guarded_bind; [apply guarded_lift|]. intros f1.
  apply guarded_bind; [apply guarded_lift|]. intros f2.
  apply guarded_bind; [apply guarded_compare_yuv_files|]. intros score.
  apply guarded_bind; [apply guarded_lift|]. intros im1.
  apply guarded_bind; [apply guarded_lift|]. intros im2. apply guarded_ret.
Qed.

Lemma quiet_ret {A} (a : A) : quiet (ret a : M World A).
Proof. intros w r w' t [= <- <- <-]. constructor. Qed.

Lemma quiet_print line : quiet (print line : M World unit).
Proof. intros w r w' t [= <- <- <-]. by repeat constructor. Qed.

Lemma quiet_call {A} (f : World -> result A * World) ev :
  (forall x, no_run (ev x)) -> quiet (call f ev).
Proof. intros Hev w r w' t [_ ->]%call_inv. by repeat constructor. Qed.

Lemma quiet_bind {A B} (m : M World A) (k : A -> M World B) :
  quiet m -> (forall a, quiet (k a)) -> quiet (bind m k).
Proof.
  intros Hm Hk w r w' t
    [(e & Hrun & ->)|(a & w1 & t1 & t2 & Hrun & Hrest & ->)]%bind_inv.
  - by eapply Hm.
  - apply Forall_app. split; [by eapply Hm|by eapply Hk].
Qed.

Lemma quiet_for_each {A B} (body : A -> M World B) l :
  (forall x, quiet (body x)) -> quiet (for_each body l).
Proof.
  intros Hbody. induction l as [|x l IH]; simpl; [apply quiet_ret|].
  apply quiet_bind; [done|]. intros y.
  apply quiet_bind; [done|]. intros ys. apply quiet_ret.
Qed.

Lemma quiet_write_csv output_csv rowdicts :
  quiet (write_csv sys output_csv rowdicts).
Proof.
  apply quiet_bind; [by apply quiet_call|]. intros _.
  apply quiet_bind; [by apply quiet_call|]. intros _.
  apply quiet_bind; [|intros _; apply quiet_ret].
  apply quiet_for_each. intros rowdict. by apply quiet_call.
Qed.

Lemma sound_main a : sound (main sys a).
Proof.
  unfold main.
  apply sound_bind; [by apply guarded_call|]. intros listing.
  apply sound_bind; [apply guarded_lift|]. intros images.
  destruct (length images <? 2)%nat; [apply guarded_sound, guarded_print|].
  apply sound_bind; [by apply guarded_call|]. intros _.
  apply sound_bind; [by apply guarded_call|]. intros _.
  apply sound_bind.
  { apply guarded_for_each. intros image. apply guarded_convert_image. }
  intros yuv_files. apply sound_bind.
  { apply guarded_for_each. intros i. apply guarded_compare_pair. }
  intros comparison_results. apply quiet_sound.
  apply quiet_bind; [apply quiet_write_csv|]. intros _. apply quiet_print.
Qed.

End Failure.

(** C7. When, in a run, a process started by the script (the converter or
    the scoring tool) returns a code other than 0, [CalledProcessError]
    escapes from [main] and the exit status is not 0; that process is the
    last event of the run, so nothing is retried and no later image or pair
    is processed; every process before it returned 0; and the CSV file is
    neither opened nor written. *)
Theorem tool_failure_aborts_run {World} (sys : os World) (a : args)
    (w w' : World) (r : result unit) (t : list event)
    (cmd : list string) (rc : Z)
    (Hmain : main sys a w = (r, w', t))
    (Hin : ERun cmd (Ok rc) ∈ t)
    (Hfail : rc <> 0%Z) :
  r = Raise (CalledProcessError rc cmd) /\
  exit_status r = 1%Z /\
  (exists t0, t = t0 ++ [ERun cmd (Ok rc)] /\ Forall run_ok t0) /\
  Forall no_csv t.
Proof.
  destruct (sound_main sys a w r w' t Hmain)
    as [Hok|(t0 & cmd' & rc' & -> & Hrc & Hok0 & Hcsv & ->)].
  - eapply Forall_forall in Hok; [|exact Hin]. done.
  - apply elem_of_app in Hin as [Hin|Hin].
    + eapply Forall_forall in Hok0; [|exact Hin]. done.
    + apply list_elem_of_singleton in Hin. injection Hin as -> ->.
      split_and!; [done|done|by exists t0|done].
Qed.

Lemma tool_failure_aborts_run_witness :
  let cmd := vmaf_command "/home/user/bin/vmaf" "yuv_dir/a1.yuv" "yuv_dir/a2.yuv"
               "json_dir/compare_0_1.json" in
  (main (stub_os failing_scorer) png_args tt).1.1
  = Raise (CalledProcessError 1 cmd) /\
  (exists t0, failing_scorer_run = t0 ++ [ERun cmd (Ok 1%Z)] /\ Forall run_ok t0) /\
  Forall no_csv failing_scorer_run.
Proof.
  intros cmd.
  destruct (tool_failure_aborts_run (stub_os failing_scorer) png_args tt tt
              (main (stub_os failing_scorer) png_args tt).1.1
              failing_scorer_run cmd 1%Z)
    as (Hr & _ & Hlast & Hcsv).
  - by vm_compute.
  - apply list_elem_of_In. vm_compute.
    repeat (first [left; reflexivity | right]).
  - done.
  - split_and!; [exact Hr|exact Hlast|exact Hcsv].
Defined.

(** ** The model of [sorted] and of [re.findall] *)

(** The sort is stable: the elements of any one key come out in the order
    in which they went in. *)
Lemma insert_by_key_stable k p l :
  List.filter (fun q => (q.1 =? k)%N) (insert_by_key p l)
  = List.filter (fun q => (q.1 =? k)%N) (p :: l).
Proof.
  induction l as [|q l IH]; [done|].
  cbn [insert_by_key]. destruct (N.leb_spec p.1 q.1) as [Hle|Hlt]; [done|].
  cbn [List.filter] in *. rewrite IH.
  destruct (N.eqb_spec p.1 k), (N.eqb_spec q.1 k); try done. lia.
Qed.

Lemma sort_by_key_stable k l :
  List.filter (fun q => (q.1 =? k)%N) (sort_by_key l)
  = List.filter (fun q => (q.1 =? k)%N) l.
Proof.
  induction l as [|p l IH]; [done|].
  cbn [sort_by_key foldr]. rewrite insert_by_key_stable.
  cbn [List.filter]. fold (sort_by_key l). by rewrite IH.
Qed.

Lemma filter_keys_snd k dl :
  Forall (fun p => sort_key p.2 = Ok p.1) dl ->
  List.filter (has_key k) (map snd dl)
  = map snd (List.filter (fun q => (q.1 =? k)%N) dl).
Proof.
  induction 1 as [|p dl Hp _ IH]; [done|].
  cbn [map List.filter]. unfold has_key at 1. rewrite Hp, IH.
  by destruct (p.1 =? k)%N.
Qed.

Lemma sorted_by_key_stable l out k :
  sorted_by_key l = Ok out ->
  List.filter (has_key k) out = List.filter (has_key k) l.
Proof.
  unfold sorted_by_key. destruct (decorate l) as [dl|e] eqn:Hdl; [|done].
  intros [= <-].
  assert (map snd dl = l /\ Forall (fun p => sort_key p.2 = Ok p.1) dl)
    as [Hsnd Hkeys].
  { clear k. revert dl Hdl. induction l as [|x l IH]; simpl; intros dl.
    - by intros [= <-].
    - destruct (sort_key x) as [kx|] eqn:Hx; [|done].
      destruct (decorate l) as [dl'|]; [|done]. intros [= <-].
      destruct (IH dl' eq_refl) as [<- Hkeys]. split; [done|by constructor]. }
  rewrite <- Hsnd. rewrite !filter_keys_snd, sort_by_key_stable; [done..|].
  by rewrite sort_by_key_perm.
Qed.

Lemma app_assoc_string s1 s2 s3 : (s1 +:+ s2) +:+ s3 = s1 +:+ s2 +:+ s3.
Proof.
  induction s1 as [|c s1 IH]; [done|]. rewrite !app_cons. by rewrite IH.
Qed.

Lemma findall_digit_free cur s :
  digit_free s = true ->
  Str.findall_digits_from cur s
  = match cur with Some r => [r] | None => [] end.
Proof.
  revert cur. induction s as [|c s IH]; intros cur; simpl; [done|].
  intros [Hc Hs]%andb_true_iff. apply negb_true_iff in Hc. rewrite Hc.
  destruct cur as [r|]; by rewrite (IH None Hs).
Qed.

Lemma findall_run acc r post :
  digits_only r = true -> digit_free post = true ->
  Str.findall_digits_from (Some acc) (r +:+ post) = [acc +:+ r].
Proof.
  revert acc. induction r as [|c r IH]; intros acc Hr Hpost.
  - rewrite app_empty_l, (findall_digit_free _ _ Hpost).
    f_equal. induction acc as [|d acc IHacc]; [done|].
    rewrite app_cons. by f_equal.
  - apply andb_true_iff in Hr as [Hc Hr].
    rewrite app_cons. cbn [Str.findall_digits_from]. rewrite Hc.
    cbn [default]. rewrite (IH _ Hr Hpost). unfold Str.snoc.
    by rewrite app_assoc_string.
Qed.

Lemma findall_prefix cur pre rest :
  ends_clean pre = true -> (pre = "" -> cur = None) ->
  exists runs,
    Str.findall_digits_from cur (pre +:+ rest)
    = runs ++ Str.findall_digits_from None rest.
Proof.
  revert cur. induction pre as [|c pre IH]; intros cur Hclean Hcur.
  - rewrite (Hcur eq_refl). by exists [].
  - rewrite app_cons. cbn [Str.findall_digits_from].
    destruct pre as [|c' pre].
    + simpl in Hclean. apply negb_true_iff in Hclean. rewrite Hclean.
      rewrite app_empty_l. destruct cur as [r|]; [by exists [r]|by exists []].
    + assert (ends_clean (String c' pre) = true) as Hclean' by exact Hclean.
      destruct (Str.is_digit c).
      * by apply IH.
      * destruct cur as [r|].
        -- destruct (IH None Hclean') as [runs Hruns]; [done|].
           exists (r :: runs). by rewrite Hruns.
        -- by apply IH.
Qed.

(** The key of a name [pre ++ r ++ post], where [r] is a run of digits that
    no digit touches on the left and no digit follows, is the number that
    [r] denotes: [r] is the last run of digits of the name. *)
Lemma sort_key_last_run pre r post :
  ends_clean pre = true -> digits_only r = true -> r <> "" ->
  digit_free post = true ->
  sort_key (pre +:+ r +:+ post) = Ok (Str.int r).
Proof.
  intros Hpre Hr Hne Hpost. unfold sort_key, Str.findall_digits.
  destruct (findall_prefix None pre (r +:+ post) Hpre) as [runs ->]; [done|].
  destruct r as [|c r]; [done|].
  apply andb_true_iff in Hr as [Hc Hr].
  rewrite app_cons. cbn [Str.findall_digits_from]. rewrite Hc.
  cbn [default]. rewrite (findall_run _ r post Hr Hpost).
  unfold Str.snoc. rewrite app_empty_l, app_cons, app_empty_l.
  by rewrite last_snoc.
Qed.

Example sort_key_a10 : sort_key "a10.png" = Ok 10%N.
Proof. reflexivity. Qed.

Example sort_key_leading_zeros : sort_key "shot-2024_0007.png" = Ok 7%N.
Proof. reflexivity. Qed.

Example sort_key_digit_in_extension : sort_key "clip12.mp4" = Ok 4%N.
Proof. reflexivity. Qed.

Example stem_examples :
  Path.stem "a1.png" = "a1" /\ Path.stem "a.1.png" = "a.1" /\
  Path.stem ".png" = ".png" /\ Path.stem "a1." = "a1.".
Proof. by vm_compute. Qed.

(** * Further properties *)

(** ** Strings *)

Lemma app_nil_r_string s : s +:+ "" = s.
Proof. induction s as [|c s IH]; [done|]. rewrite app_cons. by f_equal. Qed.

Lemma substring_all s : substring 0 (String.length s) s = s.
Proof. induction s as [|c s IH]; simpl; [done|by f_equal]. Qed.

Lemma substring_split s i :
  i <= String.length s ->
  s = substring 0 i s +:+ substring i (String.length s - i) s.
Proof.
  revert i. induction s as [|c s IH]; intros [|i] Hi; simpl in *;
    try done; try lia.
  - by rewrite substring_all.
  - rewrite app_cons. f_equal. apply IH. lia.
Qed.

(** [s.endswith(suffix)] holds only of a string that ends with [suffix]. *)
Lemma endswith_inv s suffix :
  Str.endswith s suffix = true -> exists pre, s = pre +:+ suffix.
Proof.
  unfold Str.endswith. intros [Hle Heq]%andb_true_iff.
  apply Nat.leb_le in Hle. apply String.eqb_eq in Heq.
  exists (substring 0 (String.length s - String.length suffix) s).
  pose proof (substring_split s (String.length s - String.length suffix)) as Hs.
  replace (String.length s - (String.length s - String.length suffix))
    with (String.length suffix) in Hs by lia.
  rewrite Heq in Hs. apply Hs. lia.
Qed.

Lemma int_from_of_uint d acc :
  Str.int_from acc (NilEmpty.string_of_uint d)
  = N.of_nat (Nat.of_uint_acc d (N.to_nat acc)).
Proof.
  revert acc. induction d; intros acc; simpl;
    [by rewrite N2Nat.id|rewrite IHd; do 2 f_equal; rewrite Nat.tail_mul_spec;
                         unfold Str.digit_value; simpl; lia..].
Qed.

(** [int(str(n)) = n] *)
Lemma int_of_nat n : Str.int (Str.of_nat n) = N.of_nat n.
Proof.
  unfold Str.int, Str.of_nat. rewrite int_from_of_uint.
  change (Nat.of_uint_acc (Nat.to_uint n) (N.to_nat 0))
    with (Nat.of_uint (Nat.to_uint n)).
  by rewrite Unsigned.of_to.
Qed.

Lemma of_nat_nonempty n : Str.of_nat n <> "".
Proof.
  unfold Str.of_nat. rewrite <- (Unsigned.of_to n) at 1.
  rewrite Unsigned.to_of. unfold Decimal.unorm.
  by destruct (Decimal.nzhead (Nat.to_uint n)).
Qed.

Lemma digits_only_app s1 s2 :
  digits_only s1 = true -> digits_only s2 = true ->
  digits_only (s1 +:+ s2) = true.
Proof.
  induction s1 as [|c s1 IH]; [done|]. rewrite app_cons. simpl.
  intros [Hc Hs1]%andb_true_iff Hs2. rewrite Hc. by apply IH.
Qed.

Lemma zeros_digits k : digits_only (zeros k) = true.
Proof. induction k; simpl; auto. Qed.

Lemma int_from_zeros k s : Str.int_from 0 (zeros k +:+ s) = Str.int_from 0 s.
Proof. induction k as [|k IH]; [done|]. simpl zeros. by rewrite app_cons. Qed.

Lemma ends_clean_dot x e :
  ends_clean e = true -> ends_clean (x +:+ String "." e) = true.
Proof.
  intros He. induction x as [|c x IH].
  - rewrite app_empty_l. by destruct e.
  - rewrite app_cons. simpl. destruct (x +:+ String "." e) eqn:Hx; [|done].
    by destruct x.
Qed.

(** ** The Lister, against an independent reading of its order *)

Lemma is_digit_non_digit c : Str.is_digit c = false <-> non_digit c.
Proof.
  unfold non_digit.
  destruct c as [[|] [|] [|] [|] [|] [|] [|] [|]]; vm_compute; split; congruence.
Qed.

Lemma is_digit_not_non_digit c : Str.is_digit c = true <-> ~ non_digit c.
Proof.
  rewrite <- is_digit_non_digit. destruct (Str.is_digit c); split; congruence.
Qed.

Lemma substring_suffix pre suffix :
  substring (String.length pre) (String.length suffix) (pre +:+ suffix) = suffix.
Proof.
  induction pre as [|c pre IH]; [apply substring_all|].
  rewrite app_cons. exact IH.
Qed.

(** [s.endswith(suffix)] holds exactly of the strings that end with
    [suffix]. *)
Lemma endswith_iff f suffix : Str.endswith f suffix = true <-> ends_in suffix f.
Proof.
  split; [apply endswith_inv|]. intros [pre ->]. unfold Str.endswith.
  rewrite length_app_string. apply andb_true_iff. split.
  - apply Nat.leb_le. lia.
  - replace (String.length pre + String.length suffix - String.length suffix)
      with (String.length pre) by lia.
    rewrite substring_suffix. apply String.eqb_refl.
Qed.

Lemma matches_iff extension f :
  matches extension f = true <-> ends_in ("." +:+ extension) f.
Proof. apply endswith_iff. Qed.

Lemma uint_of_string_cons c r d :
  NilEmpty.uint_of_string (String c r) = Some d ->
  Str.is_digit c = true /\ exists d', NilEmpty.uint_of_string r = Some d'.
Proof.
  simpl. destruct (NilEmpty.uint_of_string r) as [d'|]; [|done].
  intros Hc. split; [|by exists d'].
  apply uint_of_char_spec in Hc. by repeat destruct Hc as [[-> _]|Hc];
    try destruct Hc as [-> _].
Qed.

Lemma uint_of_string_digits r d :
  NilEmpty.uint_of_string r = Some d -> digits_only r = true.
Proof.
  revert d. induction r as [|c r IH]; intros d Hd; [done|].
  apply uint_of_string_cons in Hd as [Hc [d' Hd']]. simpl.
  rewrite Hc. by apply (IH d').
Qed.

Lemma digits_uint_of_string r :
  digits_only r = true -> exists d, NilEmpty.uint_of_string r = Some d.
Proof.
  induction r as [|c r IH]; simpl; [by eexists|].
  intros [Hc [d Hd]%IH]%andb_true_iff. rewrite Hd.
  destruct c as [[|] [|] [|] [|] [|] [|] [|] [|]]; try done; by eexists.
Qed.

(** [int(r)] is the number that the standard library reads from [r]. *)
Lemma int_uint_of_string r d :
  NilEmpty.uint_of_string r = Some d -> Str.int r = N.of_nat (Nat.of_uint d).
Proof.
  intros <-%NilEmpty.sus. unfold Str.int. by rewrite int_from_of_uint.
Qed.

Lemma ends_clean_snoc x c :
  Str.is_digit c = false -> ends_clean (x +:+ String c "") = true.
Proof.
  intros Hc. induction x as [|c' x IH].
  - rewrite app_empty_l. simpl. by rewrite Hc.
  - rewrite app_cons. simpl. destruct (x +:+ String c "") eqn:Hx; [|done].
    by destruct x.
Qed.

Lemma ends_clean_inv pre :
  ends_clean pre = true ->
  pre = "" \/ exists pre' c, pre = pre' +:+ String c "" /\ non_digit c.
Proof.
  induction pre as [|c pre IH]; [by left|]. intros Hclean. right.
  destruct pre as [|c' pre].
  - exists "", c. split; [done|]. apply is_digit_non_digit.
    simpl in Hclean. by apply negb_true_iff.
  - destruct IH as [[=]|(pre' & c0 & -> & Hc0)]; [exact Hclean|].
    exists (String c pre'), c0. by rewrite app_cons.
Qed.

Lemma digit_free_inv post :
  digit_free post = true ->
  forall s1 c s2, post = s1 +:+ String c s2 -> non_digit c.
Proof.
  induction post as [|c0 post IH]; intros Hfree s1 c s2 Heq.
  - by destruct s1.
  - simpl in Hfree. apply andb_true_iff in Hfree as [Hc0 Hfree].
    destruct s1 as [|c1 s1].
    + rewrite app_empty_l in Heq. injection Heq as <- _.
      apply is_digit_non_digit. by apply negb_true_iff.
    + rewrite app_cons in Heq. injection Heq as _ ->. by apply (IH Hfree s1 c s2).
Qed.

Lemma digit_free_intro post :
  (forall s1 c s2, post = s1 +:+ String c s2 -> non_digit c) ->
  digit_free post = true.
Proof.
  induction post as [|c0 post IH]; intros Hpost; [done|]. simpl.
  apply andb_true_iff. split.
  - apply negb_true_iff, is_digit_non_digit. by apply (Hpost "" c0 post).
  - apply IH. intros s1 c s2 ->. by apply (Hpost (String c0 s1) c s2).
Qed.

Lemma contains_digit_not_free f : contains_digit f -> digit_free f = false.
Proof.
  intros (s1 & c & s2 & -> & Hc). apply is_digit_not_non_digit in Hc.
  induction s1 as [|c1 s1 IH].
  - rewrite app_empty_l. simpl. by rewrite Hc.
  - rewrite app_cons. simpl. rewrite IH. apply andb_false_r.
Qed.

(** A string that holds a digit has a last run of digits. *)
Lemma last_run_exists f :
  digit_free f = false ->
  exists pre r post,
    f = pre +:+ r +:+ post /\ ends_clean pre = true /\
    digits_only r = true /\ r <> "" /\ digit_free post = true.
Proof.
  induction f as [|c f IH]; [done|]. intros Hf.
  destruct (digit_free f) eqn:Hfree.
  - simpl in Hf. rewrite Hfree, andb_true_r in Hf.
    apply negb_false_iff in Hf.
    exists "", (String c ""), f. split_and!; [done|done| |done|done].
    simpl. by rewrite Hf.
  - destruct (IH eq_refl) as (pre & r & post & -> & Hpre & Hr & Hne & Hpost).
    destruct pre as [|c' pre].
    + destruct (Str.is_digit c) eqn:Hc.
      * exists "", (String c r), post. split_and!; [done|done| |done|done].
        simpl. by rewrite Hc.
      * exists (String c ""), r, post. split_and!; [done| |done..].
        simpl. by rewrite Hc.
    + exists (String c (String c' pre)), r, post. by split_and!.
Qed.

(** The key of the sort is the last number of the name. *)
Lemma last_number_sort_key x n :
  last_number x n -> sort_key x = Ok (N.of_nat n).
Proof.
  intros (pre & r & post & d & -> & Hpre & Hne & Hd & Hpost & ->).
  rewrite <- (int_uint_of_string r d Hd). apply sort_key_last_run.
  - destruct Hpre as [->|(pre' & c & -> & Hc)]; [done|].
    by apply ends_clean_snoc, is_digit_non_digit.
  - by apply uint_of_string_digits with d.
  - done.
  - by apply digit_free_intro.
Qed.

Lemma contains_digit_last_number f :
  contains_digit f -> exists n, last_number f n.
Proof.
  intros (pre & r & post & -> & Hpre & Hr & Hne & Hpost)
    %contains_digit_not_free%last_run_exists.
  destruct (digits_uint_of_string r Hr) as [d Hd].
  exists (Nat.of_uint d), pre, r, post, d.
  split_and!; [done|by apply ends_clean_inv|done|done|by apply digit_free_inv|done].
Qed.

Lemma last_number_unique x n m : last_number x n -> last_number x m -> n = m.
Proof.
  intros Hn%last_number_sort_key Hm%last_number_sort_key.
  rewrite Hn in Hm. injection Hm as Hm. lia.
Qed.

Lemma filter_partition {A} (f : A -> bool) l :
  l ≡ₚ List.filter f l ++ List.filter (fun x => negb (f x)) l.
Proof.
  induction l as [|x l IH]; simpl; [done|].
  destruct (f x); simpl; [by rewrite <- IH|].
  by rewrite <- Permutation_middle, <- IH.
Qed.

Lemma StronglySorted_impl_elem {A} (R R' : A -> A -> Prop) l :
  (forall x y, x ∈ l -> y ∈ l -> R x y -> R' x y) ->
  StronglySorted R l -> StronglySorted R' l.
Proof.
  intros Himpl Hsorted. induction Hsorted as [|x l Hl IH Hx]; [constructor|].
  constructor.
  - apply IH. intros y z Hy Hz. apply Himpl; by right.
  - apply Forall_forall. intros y Hy. apply Himpl; [left|by right|].
    by eapply Forall_forall in Hx.
Qed.

Lemma key_ordered_numeric x y :
  contains_digit x -> contains_digit y -> key_ordered x y -> numeric_order x y.
Proof.
  intros [nx Hnx]%contains_digit_last_number [ny Hny]%contains_digit_last_number
    (kx & ky & Hkx & Hky & Hle).
  exists nx, ny. split_and!; [done..|].
  rewrite (last_number_sort_key _ _ Hnx) in Hkx.
  rewrite (last_number_sort_key _ _ Hny) in Hky.
  injection Hkx as <-. injection Hky as <-. lia.
Qed.

(** C1. When every listed name that ends with [.<extension>] holds a digit,
    the Lister returns a sequence [images] such that the listing is, up to
    order, [images] together with the names that do not end with
    [.<extension>]: [images] is a permutation of the listed names ending
    with [.<extension>].  It is sorted in ascending order of the number
    that the last run of digits of each name writes in base ten, a number
    that each name has once only.  The order is numeric, not lexical:
    [a10.png, a2.png, a1.png] comes back as [a1.png, a2.png, a10.png]; only
    the last run counts, leading zeros do not, and a name that ends with
    the extension without the dot is left out. *)
Theorem lister_sorted_permutation (listing : list string) (extension : string)
    (Hdigits : forall f, f ∈ listing -> ends_in ("." +:+ extension) f ->
                         contains_digit f) :
  (exists images others,
      get_sorted_image_list listing extension = Ok images /\
      listing ≡ₚ images ++ others /\
      Forall (ends_in ("." +:+ extension)) images /\
      Forall (fun f => ~ ends_in ("." +:+ extension) f) others /\
      StronglySorted numeric_order images) /\
  (forall x n m, last_number x n -> last_number x m -> n = m) /\
  get_sorted_image_list ["a10.png"; "a2.png"; "a1.png"] "png"
  = Ok ["a1.png"; "a2.png"; "a10.png"] /\
  get_sorted_image_list
    ["s1_a10.png"; "s3xpng"; "s2_a007.png"; "s9_a8.png"] "png"
  = Ok ["s2_a007.png"; "s9_a8.png"; "s1_a10.png"].
Proof.
  split_and!; [|apply last_number_unique|by vm_compute..].
  set (l := List.filter (matches extension) listing).
  assert (forall f, f ∈ l -> contains_digit f) as Hl.
  { intros f [Hin Hm]%elem_of_matching. by apply Hdigits, matches_iff. }
  destruct (sorted_by_key_ok l) as (images & Himages & Hperm & Hsorted).
  { apply Forall_forall. intros f [n Hn%last_number_sort_key]
      %Hl%contains_digit_last_number.
    unfold sort_key in Hn. by destruct (Str.findall_digits f). }
  exists images, (List.filter (fun f => negb (matches extension f)) listing).
  split_and!.
  - done.
  - rewrite Hperm. apply filter_partition.
  - apply Forall_forall. intros f Hf. rewrite Hperm in Hf.
    apply elem_of_matching in Hf as [_ Hm]. by apply matches_iff.
  - apply Forall_forall. intros f [_ Hm]%list_elem_of_In%filter_In Hends.
    apply matches_iff in Hends. by rewrite Hends in Hm.
  - apply (StronglySorted_impl_elem key_ordered); [|done].
    intros x y Hx Hy. rewrite Hperm in Hx, Hy.
    apply key_ordered_numeric; by apply Hl.
Qed.

Lemma lister_sorted_permutation_witness :
  exists images others,
    get_sorted_image_list ["b7.png"; "notes.txt"; "a10.png"; "a2.png"] "png"
    = Ok images /\
    ["b7.png"; "notes.txt"; "a10.png"; "a2.png"] ≡ₚ images ++ others /\
    Forall (ends_in ("." +:+ "png")) images /\
    Forall (fun f => ~ ends_in ("." +:+ "png") f) others /\
    StronglySorted numeric_order images.
Proof.
  refine (proj1 (lister_sorted_permutation
                   ["b7.png"; "notes.txt"; "a10.png"; "a2.png"] "png" _)).
  intros f Hin Hends.
  repeat (apply elem_of_cons in Hin as [->|Hin]).
  - exists "b", "7"%char, ".png". by split.
  - by apply matches_iff in Hends.
  - exists "a", "1"%char, "0.png". by split.
  - exists "a", "2"%char, ".png". by split.
  - by apply elem_of_nil in Hin.
Defined.

(** ** More on the Lister *)

Lemma decorate_inv l dl :
  decorate l = Ok dl ->
  map snd dl = l /\ Forall (fun p => sort_key p.2 = Ok p.1) dl.
Proof.
  revert dl. induction l as [|x l IH]; simpl; intros dl.
  - by intros [= <-].
  - destruct (sort_key x) as [kx|] eqn:Hx; [|done].
    destruct (decorate l) as [dl'|]; [|done]. intros [= <-].
    destruct (IH dl' eq_refl) as [<- Hkeys]. split; [done|by constructor].
Qed.

Lemma decorate_keys dl :
  Forall (fun p => sort_key p.2 = Ok p.1) dl -> decorate (map snd dl) = Ok dl.
Proof.
  induction 1 as [|[k x] dl Hp _ IH]; simpl in *; [done|].
  by rewrite Hp, IH.
Qed.

(** Sorting a sorted list changes nothing. *)
Lemma sort_by_key_sorted_id l : StronglySorted key_le l -> sort_by_key l = l.
Proof.
  induction 1 as [|p l Hl IH Hp]; [done|].
  cbn [sort_by_key foldr]. fold (sort_by_key l). rewrite IH.
  destruct Hp as [|q l Hq _]; [done|]. simpl.
  unfold key_le in Hq. by destruct (N.leb_spec p.1 q.1); [|lia].
Qed.

Lemma filter_all {A} (f : A -> bool) l :
  Forall (fun x => f x = true) l -> List.filter f l = l.
Proof. induction 1 as [|x l Hx _ IH]; simpl; [done|]. by rewrite Hx, IH. Qed.

Lemma filter_perm {A} (f : A -> bool) l l' :
  l ≡ₚ l' -> List.filter f l ≡ₚ List.filter f l'.
Proof.
  induction 1 as [|x l l' _ IH|x y l|l l' l'' _ IH1 _ IH2]; simpl.
  - done.
  - destruct (f x); by rewrite IH.
  - destruct (f x), (f y); try done. apply Permutation_swap.
  - by rewrite IH1.
Qed.

Lemma lister_inv listing extension images :
  get_sorted_image_list listing extension = Ok images ->
  exists dl,
    decorate (List.filter (matches extension) listing) = Ok dl /\
    images = map snd (sort_by_key dl).
Proof.
  unfold get_sorted_image_list, sorted_by_key.
  destruct (decorate _) as [dl|]; [|done]. intros [= <-]. by exists dl.
Qed.

(** X1. Names with the same key keep the order they have in the directory
    listing: the names of any one key come out of the Lister in the order
    in which they went in. *)
Theorem lister_keeps_order_of_equal_keys
    (listing : list string) (extension : string) (images : list string) (k : N)
    (Himages : get_sorted_image_list listing extension = Ok images) :
  List.filter (has_key k) images
  = List.filter (has_key k) (List.filter (matches extension) listing).
Proof. by apply sorted_by_key_stable. Qed.

Lemma lister_keeps_order_of_equal_keys_witness :
  List.filter (has_key 1) ["b1.png"; "a1.png"; "c01.png"; "a2.png"]
  = List.filter (has_key 1)
      (List.filter (matches "png") ["a2.png"; "b1.png"; "a1.png"; "c01.png"]).
Proof.
  apply (lister_keeps_order_of_equal_keys
           ["a2.png"; "b1.png"; "a1.png"; "c01.png"] "png").
  by vm_compute.
Defined.

(** X2. The key of a name is the number written by its last run of digits,
    leading zeros ignored: for a name [pre ++ 0..0 ++ str(n) ++ post], where
    [pre] does not end with a digit and [post] holds no digit, the key is
    [n]. *)
Theorem sort_key_reads_last_number (pre post : string) (z n : nat)
    (Hpre : ends_clean pre = true) (Hpost : digit_free post = true) :
  sort_key (pre +:+ (zeros z +:+ Str.of_nat n) +:+ post) = Ok (N.of_nat n).
Proof.
  rewrite sort_key_last_run; [|done| | |done].
  - unfold Str.int. by rewrite int_from_zeros, <- int_of_nat.
  - apply digits_only_app; [apply zeros_digits|apply of_nat_digits].
  - intros Hempty. apply (of_nat_nonempty n).
    destruct z; [by rewrite app_empty_l in Hempty|done].
Qed.

Lemma sort_key_reads_last_number_witness :
  sort_key ("shot_2024-" +:+ (zeros 2 +:+ Str.of_nat 17) +:+ ".png") = Ok 17%N.
Proof.
  apply (sort_key_reads_last_number "shot_2024-" ".png" 2 17); reflexivity.
Defined.

Lemma decorate_const k l :
  Forall (fun x => sort_key x = Ok k) l ->
  decorate l = Ok (map (fun x => (k, x)) l).
Proof. induction 1 as [|x l Hx _ IH]; simpl; [done|]. by rewrite Hx, IH. Qed.

Lemma sort_by_key_const k (l : list string) :
  sort_by_key (map (fun x => (k, x)) l) = map (fun x => (k, x)) l.
Proof.
  apply sort_by_key_sorted_id.
  induction l as [|x l IH]; simpl; constructor; [done|].
  apply Forall_map, Forall_forall. intros y _. unfold key_le. simpl. lia.
Qed.

Lemma sort_key_digit_extension f e d :
  ends_clean e = true -> digits_only d = true -> d <> "" ->
  matches (e +:+ d) f = true -> sort_key f = Ok (Str.int d).
Proof.
  intros He Hd Hne [pre ->]%endswith_inv.
  replace (pre +:+ "." +:+ e +:+ d) with ((pre +:+ String "." e) +:+ d +:+ "").
  - apply sort_key_last_run; [by apply ends_clean_dot|done..].
  - by rewrite app_nil_r_string, app_assoc_string.
Qed.

(** X3. When the extension ends with a digit (as [jp2] or [mp4] do), the
    last run of digits of every matching name lies in the extension, all
    keys are equal, and the Lister returns the matching names in the order
    of the directory listing: the numbers in the names play no part. *)
Theorem lister_extension_with_digit (listing : list string) (e d : string)
    (He : ends_clean e = true) (Hd : digits_only d = true) (Hne : d <> "") :
  get_sorted_image_list listing (e +:+ d)
  = Ok (List.filter (matches (e +:+ d)) listing).
Proof.
  unfold get_sorted_image_list, sorted_by_key.
  rewrite (decorate_const (Str.int d)).
  - rewrite sort_by_key_const. f_equal. rewrite map_map. apply map_id.
  - apply Forall_forall. intros f [_ Hf]%elem_of_matching.
    by apply (sort_key_digit_extension f e d).
Qed.

Lemma lister_extension_with_digit_witness :
  get_sorted_image_list ["f10.jp2"; "f2.jp2"; "f1.png"; "f1.jp2"] ("jp" +:+ "2")
  = Ok (List.filter (matches ("jp" +:+ "2"))
          ["f10.jp2"; "f2.jp2"; "f1.png"; "f1.jp2"]).
Proof.
  apply (lister_extension_with_digit
           ["f10.jp2"; "f2.jp2"; "f1.png"; "f1.jp2"] "jp" "2");
    [reflexivity|reflexivity|discriminate].
Defined.

(** X4. Listing again what the Lister returned gives the same sequence: the
    Lister keeps every name of its own output and leaves a sorted sequence
    as it is. *)
Theorem lister_idempotent (listing : list string) (extension : string)
    (images : list string)
    (Himages : get_sorted_image_list listing extension = Ok images) :
  get_sorted_image_list images extension = Ok images.
Proof.
  destruct (lister_inv _ _ _ Himages) as (dl & Hdl & ->).
  destruct (decorate_inv _ _ Hdl) as [Hsnd Hkeys].
  assert (Forall (fun p => sort_key p.2 = Ok p.1) (sort_by_key dl)) as Hkeys'
    by (by rewrite sort_by_key_perm).
  unfold get_sorted_image_list, sorted_by_key. rewrite filter_all.
  - rewrite (decorate_keys _ Hkeys').
    by rewrite (sort_by_key_sorted_id _ (sort_by_key_sorted dl)).
  - apply Forall_forall. intros f Hf.
    assert (f ∈ List.filter (matches extension) listing) as Hin.
    { rewrite <- Hsnd.
      eapply elem_of_Permutation_proper; [|exact Hf].
      symmetry. apply Permutation_map, sort_by_key_perm. }
    by apply elem_of_matching in Hin as [_ Hm].
Qed.

Lemma lister_idempotent_witness :
  get_sorted_image_list ["a1.png"; "a2.png"; "a10.png"] "png"
  = Ok ["a1.png"; "a2.png"; "a10.png"].
Proof.
  apply (lister_idempotent ["a10.png"; "notes.txt"; "a2.png"; "a1.png"] "png").
  by vm_compute.
Defined.

Lemma key_ordered_antisym (l1 l2 : list string) :
  (forall f g k, f ∈ l1 -> g ∈ l2 -> sort_key f = Ok k -> sort_key g = Ok k -> f = g) ->
  forall x1 x2, x1 ∈ l1 -> x2 ∈ l2 -> key_ordered x1 x2 -> key_ordered x2 x1 -> x1 = x2.
Proof.
  intros Hdistinct x1 x2 H1 H2 (k1 & k2 & Hk1 & Hk2 & Hle)
    (k2' & k1' & Hk2' & Hk1' & Hge).
  rewrite Hk1 in Hk1'. rewrite Hk2 in Hk2'.
  injection Hk1' as <-. injection Hk2' as <-.
  assert (k1 = k2) as -> by lia. by apply (Hdistinct x1 x2 k2).
Qed.

(** X5. When no two matching names have the same key, the Lister's answer
    does not depend on the order in which the directory was listed: two
    listings of the same names give the same result, the same sequence or
    the same exception. *)
Theorem lister_independent_of_listing_order
    (listing listing' : list string) (extension : string)
    (Hperm : listing ≡ₚ listing')
    (Hdistinct : forall f g k,
        f ∈ listing -> g ∈ listing ->
        matches extension f = true -> matches extension g = true ->
        sort_key f = Ok k -> sort_key g = Ok k -> f = g) :
  get_sorted_image_list listing extension
  = get_sorted_image_list listing' extension.
Proof.
  pose proof (filter_perm (matches extension) _ _ Hperm) as Hfilter.
  unfold get_sorted_image_list.
  set (l := List.filter (matches extension) listing) in *.
  set (l' := List.filter (matches extension) listing') in *.
  destruct (decide (Forall (fun x => Str.findall_digits x <> []) l)) as [Hall|Hnot].
  - destruct (sorted_by_key_ok l Hall) as (out & -> & Hout & Hsorted).
    assert (Forall (fun x => Str.findall_digits x <> []) l') as Hall'
      by (by rewrite <- Hfilter).
    destruct (sorted_by_key_ok l' Hall') as (out' & -> & Hout' & Hsorted').
    f_equal.
    apply (StronglySorted_unique_strong key_ordered); [|done|done|].
    + apply (key_ordered_antisym out out'). intros f g k Hf Hg.
      rewrite Hout in Hf. rewrite Hout', <- Hfilter in Hg.
      apply elem_of_matching in Hf as [Hf Hmf].
      apply elem_of_matching in Hg as [Hg Hmg]. by apply Hdistinct.
    + by rewrite Hout, Hout'.
  - apply not_Forall_Exists in Hnot; [|apply _].
    apply Exists_exists in Hnot as (x & Hx & Hnone).
    assert (Str.findall_digits x = []) as Hnil
      by (by destruct (decide (Str.findall_digits x = []))).
    unfold sorted_by_key.
    assert (x ∈ l') as Hx' by (by rewrite <- Hfilter).
    by rewrite (decorate_raise l x Hx Hnil), (decorate_raise l' x Hx' Hnil).
Qed.

Lemma lister_independent_of_listing_order_witness :
  get_sorted_image_list ["a10.png"; "a2.png"; "a1.png"] "png"
  = get_sorted_image_list ["a2.png"; "a1.png"; "a10.png"] "png".
Proof.
  apply lister_independent_of_listing_order.
  - apply (Permutation_cons_append ["a2.png"; "a1.png"] "a10.png").
  - intros f g k Hf Hg _ _.
    repeat (apply elem_of_cons in Hf as [->|Hf]);
      try (by apply elem_of_nil in Hf);
      repeat (apply elem_of_cons in Hg as [->|Hg]);
      try (by apply elem_of_nil in Hg);
      try done; vm_compute; congruence.
Defined.

(** ** Reading the result file *)

(** X6. The score is extracted from documents of exactly one shape: an
    object whose ["frames"] is a list, the first element of which is an
    object whose ["metrics"] is an object with the field ["vmaf"].  Every
    other document makes the extraction raise. *)
Theorem vmaf_score_of_ok_iff (doc score : value) :
  vmaf_score_of doc = Ok score <->
  exists (d frame metrics : gmap string value) (frames : list value),
    doc = VDict d /\
    d !! "frames" = Some (VList (VDict frame :: frames)) /\
    frame !! "metrics" = Some (VDict metrics) /\
    metrics !! "vmaf" = Some score.
Proof.
  split.
  - unfold vmaf_score_of. destruct doc as [| | | | |l|d]; try done. simpl.
    destruct (d !! "frames") as [frames|] eqn:Hframes; [|done]. simpl.
    destruct frames as [| | | |s|l|d']; try done; simpl.
    + destruct (String.get 0 s); done.
    + destruct l as [|frame frames]; [done|]. simpl.
      destruct frame as [| | | | |l'|frame]; try done. simpl.
      destruct (frame !! "metrics") as [metrics|] eqn:Hmetrics; [|done]. simpl.
      destruct metrics as [| | | | |l'|metrics]; try done. simpl.
      destruct (metrics !! "vmaf") as [x|] eqn:Hscore; [|done].
      intros [= ->]. by exists d, frame, metrics, frames.
  - intros (d & frame & metrics & frames & -> & Hframes & Hmetrics & Hscore).
    unfold vmaf_score_of. simpl. rewrite Hframes. simpl.
    rewrite Hmetrics. simpl. by rewrite Hscore.
Qed.

(** X7. What a malformed result raises, kind by kind; with the documents
    that give a score, these are all the documents there are.  [KeyError]
    is raised exactly when the document is an object and ["frames"] is
    missing, or is itself an object (it has no key [0]), or is a list
    whose first element is an object without ["metrics"], or with metrics
    that are an object without ["vmaf"].  [IndexError] is raised exactly
    when ["frames"] is the empty list or the empty string.  [TypeError] is
    raised exactly when the document is not an object, or ["frames"] is
    null, a boolean or a number, or a non-empty string (its first character
    is a string, which has no field), or a list whose first element is not
    an object, or is an object with metrics that are not an object. *)
Theorem vmaf_score_of_malformed (doc : value) :
  (vmaf_score_of doc = Raise KeyError <->
   exists d, doc = VDict d /\
     (d !! "frames" = None \/
      (exists d', d !! "frames" = Some (VDict d')) \/
      exists frame frames,
        d !! "frames" = Some (VList (VDict frame :: frames)) /\
        (frame !! "metrics" = None \/
         exists metrics,
           frame !! "metrics" = Some (VDict metrics) /\
           metrics !! "vmaf" = None))) /\
  (vmaf_score_of doc = Raise IndexError <->
   exists d, doc = VDict d /\
     (d !! "frames" = Some (VList []) \/ d !! "frames" = Some (VStr ""))) /\
  (vmaf_score_of doc = Raise TypeError <->
   (forall d, doc <> VDict d) \/
   exists d, doc = VDict d /\
     (d !! "frames" = Some VNone \/
      (exists b, d !! "frames" = Some (VBool b)) \/
      (exists z, d !! "frames" = Some (VInt z)) \/
      (exists f, d !! "frames" = Some (VFloat f)) \/
      (exists c s, d !! "frames" = Some (VStr (String c s))) \/
      (exists frame frames,
          d !! "frames" = Some (VList (frame :: frames)) /\
          forall d', frame <> VDict d') \/
      exists frame frames metrics,
        d !! "frames" = Some (VList (VDict frame :: frames)) /\
        frame !! "metrics" = Some metrics /\
        forall d', metrics <> VDict d')) /\
  ((exists score, vmaf_score_of doc = Ok score) \/
   vmaf_score_of doc = Raise KeyError \/
   vmaf_score_of doc = Raise IndexError \/
   vmaf_score_of doc = Raise TypeError).
Proof.
  unfold vmaf_score_of.
  destruct doc as [| | | | |l|d]; simpl;
    try (split_and!; [split; [done|by intros (? & [=] & _)]
                     |split; [done|by intros (? & [=] & _)]
                     |split; [by left|done]
                     |by do 3 right]).
  destruct (d !! "frames") as [fr|] eqn:Hframes; simpl.
  2: { split_and!.
       - split; [|done]. intros _. exists d. split; [done|]. by left.
       - split; [done|]. by intros (? & [= <-] & [?|?]); simplify_eq.
       - split; [done|]. intros [Hno|(? & [= <-] & Hsh)]; [by destruct (Hno d)|].
         destruct Hsh as [?|[[? ?]|[[? ?]|[[? ?]|[(? & ? & ?)|[(? & ? & ? & _)
                                                             |(? & ? & ? & ? & _)]]]]]];
           simplify_eq.
       - by right; left. }
  assert (forall P : gmap string value -> Prop,
             (exists d0, VDict d = VDict d0 /\ P d0) <-> P d) as Hex.
  { intros P. split; [by intros (? & [= <-] & ?)|]. intros HP. by exists d. }
  rewrite !Hex. clear Hex.
  assert (forall Q : Prop,
             ((forall d0, VDict d <> VDict d0) \/ Q) <-> Q) as Hor.
  { intros Q. split; [|by right]. intros [Hd|HQ]; [by destruct (Hd d)|done]. }
  rewrite Hor. clear Hor. rewrite Hframes.
  destruct fr as [|b|z|f|s|l|d']; simpl.
  - split_and!; [naive_solver..|by do 3 right].
  - split_and!; [naive_solver..|by do 3 right].
  - split_and!; [naive_solver..|by do 3 right].
  - split_and!; [naive_solver..|by do 3 right].
  - destruct s as [|c s]; simpl.
    + split_and!; [naive_solver..|by right; right; left].
    + split_and!; [naive_solver..|by do 3 right].
  - destruct l as [|frame frames]; simpl.
    { split_and!; [naive_solver..|by right; right; left]. }
    destruct frame as [| | | | |l'|frame]; simpl;
      try (split_and!; [naive_solver..|by do 3 right]).
    destruct (frame !! "metrics") as [metrics|] eqn:Hmetrics; simpl.
    2: { split_and!; [naive_solver..|by right; left]. }
    destruct metrics as [| | | | |l'|metrics]; simpl;
      try (split_and!; [naive_solver..|by do 3 right]).
    destruct (metrics !! "vmaf") as [score|] eqn:Hscore.
    + split_and!; [naive_solver..|left; by exists score].
    + split_and!; [naive_solver..|by right; left].
  - split_and!; [naive_solver..|by right; left].
Qed.

(** ** More on the Comparator *)

Section Comparator.
Context {World : Type} (sys : os World).

Lemma compare_yuv_files_ok_run exe f1 f2 path w score w' t :
  compare_yuv_files sys exe f1 f2 path w = (Ok score, w', t) ->
  exists w1 doc,
    os_run sys (vmaf_command exe f1 f2 path) w = (Ok 0%Z, w1) /\
    os_load_json sys path w1 = (Ok doc, w') /\
    vmaf_score_of doc = Ok score /\
    t = vmaf_events exe f1 f2 path doc.
Proof.
  unfold compare_yuv_files.
  intros (u & w0 & t1 & t2 & Hprint & Hrest & ->)%bind_ok_inv.
  injection Hprint as <- <- <-.
  apply bind_ok_inv in Hrest
      as (u & w1 & t1 & t3 & [Hrun ->]%subprocess_run_check_ok_inv & Hrest & ->).
  apply bind_ok_inv in Hrest
      as (doc & w2 & t1 & t4 & [Hload ->]%call_inv & Hrest & ->).
  apply bind_ok_inv in Hrest
      as (score' & w3 & t1 & t5 & (Hscore & -> & ->)%lift_inv & Hret & ->).
  injection Hret as <- <- <-. by exists w1, doc.
Qed.

Lemma compare_yuv_files_failed_run exe f1 f2 path w x w1 :
  os_run sys (vmaf_command exe f1 f2 path) w = (x, w1) ->
  x <> Ok 0%Z ->
  compare_yuv_files sys exe f1 f2 path w
  = (Raise match x with
           | Ok rc => CalledProcessError rc (vmaf_command exe f1 f2 path)
           | Raise e => e
           end,
     w1,
     [EPrint (Str.join " " (vmaf_command exe f1 f2 path));
      ERun (vmaf_command exe f1 f2 path) x]).
Proof.
  intros Hrun Hx. unfold compare_yuv_files. destruct x as [rc|e].
  - assert ((rc =? 0)%Z = false) as Hrc by (apply Z.eqb_neq; congruence).
    erewrite bind_ok; [|reflexivity|].
    2: { apply bind_raise. unfold subprocess_run_check.
         erewrite bind_ok; [|by apply call_run|by rewrite Hrc]. done. }
    done.
  - erewrite bind_ok; [|reflexivity|].
    2: { apply bind_raise. unfold subprocess_run_check.
         apply bind_raise. by apply call_run. }
    done.
Qed.

End Comparator.

(** X8. The Comparator returns a score in one case only: the scoring tool
    returned 0, the result file could be read and parsed, and the document
    has the expected shape; it has then printed the command, run it and
    read the file, in this order, and nothing else. *)
Theorem comparator_ok_iff {World} (sys : os World)
    (exe yuv_file_1 yuv_file_2 json_output_path : string)
    (w w' : World) (score : value) (t : list event) :
  compare_yuv_files sys exe yuv_file_1 yuv_file_2 json_output_path w
  = (Ok score, w', t) <->
  exists w1 doc,
    os_run sys (vmaf_command exe yuv_file_1 yuv_file_2 json_output_path) w
    = (Ok 0%Z, w1) /\
    os_load_json sys json_output_path w1 = (Ok doc, w') /\
    vmaf_score_of doc = Ok score /\
    t = vmaf_events exe yuv_file_1 yuv_file_2 json_output_path doc.
Proof.
  split; [apply compare_yuv_files_ok_run|].
  intros (w1 & doc & Hrun & Hload & Hscore & ->).
  by apply compare_yuv_files_ok with w1.
Qed.

(** X9. When the scoring tool cannot be started or returns a code other
    than 0, the Comparator raises at once (the tool's own exception, or
    [CalledProcessError] with the code and the command): a result file left
    by an earlier run is not read. *)
Theorem comparator_does_not_read_after_failure {World} (sys : os World)
    (exe yuv_file_1 yuv_file_2 json_output_path : string)
    (w w1 : World) (x : result Z)
    (Hrun : os_run sys (vmaf_command exe yuv_file_1 yuv_file_2 json_output_path) w
            = (x, w1))
    (Hfail : x <> Ok 0%Z) :
  compare_yuv_files sys exe yuv_file_1 yuv_file_2 json_output_path w
  = (Raise match x with
           | Ok rc => CalledProcessError rc
                        (vmaf_command exe yuv_file_1 yuv_file_2 json_output_path)
           | Raise e => e
           end,
     w1,
     [EPrint (Str.join " " (vmaf_command exe yuv_file_1 yuv_file_2
                              json_output_path));
      ERun (vmaf_command exe yuv_file_1 yuv_file_2 json_output_path) x]).
Proof. by apply compare_yuv_files_failed_run. Qed.

Lemma comparator_does_not_read_after_failure_witness :
  compare_yuv_files (stub_os failing_scorer) "vmaf" "a1.yuv" "a2.yuv"
    "compare_0_1.json" tt
  = (Raise (CalledProcessError 1
              (vmaf_command "vmaf" "a1.yuv" "a2.yuv" "compare_0_1.json")),
     tt,
     [EPrint (Str.join " " (vmaf_command "vmaf" "a1.yuv" "a2.yuv"
                              "compare_0_1.json"));
      ERun (vmaf_command "vmaf" "a1.yuv" "a2.yuv" "compare_0_1.json")
           (Ok 1%Z)]).
Proof.
  apply (comparator_does_not_read_after_failure (stub_os failing_scorer)
           "vmaf" "a1.yuv" "a2.yuv" "compare_0_1.json" tt tt (Ok 1%Z));
    [reflexivity|discriminate].
Defined.

(** ** Failures of any kind stop the run *)

Section FailFast.
Context {World : Type} (sys : os World).

Lemma stopped_ok {A} (a : A) t : stopped_at_failure (Ok a) t -> Forall harmless t.
Proof. by intros [Hall|(t0 & e & x & _ & _ & _ & [=])]. Qed.

Lemma stopped_raise {A B} x t :
  stopped_at_failure (@Raise A x) t -> stopped_at_failure (@Raise B x) t.
Proof.
  intros [Hall|(t0 & e & y & -> & He & Hall & [= ->])]; [by left|right].
  by exists t0, e, y.
Qed.

Lemma fail_fast_ret {A} (a : A) : fail_fast (ret a : M World A).
Proof. intros w r w' t [= <- <- <-]. left. constructor. Qed.

Lemma fail_fast_lift {A} (x : result A) : fail_fast (lift x : M World A).
Proof. intros w r w' t [= <- <- <-]. left. constructor. Qed.

Lemma fail_fast_print line : fail_fast (print line : M World unit).
Proof. intros w r w' t [= <- <- <-]. left. by repeat constructor. Qed.

Lemma fail_fast_call {A} (f : World -> result A * World) ev :
  (forall a, failure (ev (Ok a)) = None) ->
  (forall x, failure (ev (Raise x)) = Some x) ->
  fail_fast (call f ev).
Proof.
  intros Hok Hraise w r w' t [_ ->]%call_inv. destruct r as [a|x].
  - left. constructor; [apply Hok|constructor].
  - right. exists [], (ev (Raise x)), x. by split_and!.
Qed.

Lemma fail_fast_bind {A B} (m : M World A) (k : A -> M World B) :
  fail_fast m -> (forall a, fail_fast (k a)) -> fail_fast (bind m k).
Proof.
  intros Hm Hk w r w' t
    [(e & Hrun & ->)|(a & w1 & t1 & t2 & Hrun & Hrest & ->)]%bind_inv.
  - apply (@stopped_raise A B), (Hm _ _ _ _ Hrun).
  - pose proof (stopped_ok _ _ (Hm _ _ _ _ Hrun)) as Hall1.
    destruct (Hk a _ _ _ _ Hrest) as [Hall2|(t0 & e & x & -> & He & Hall0 & ->)].
    + left. by apply Forall_app.
    + right. exists (t1 ++ t0), e, x.
      split_and!; [by rewrite app_assoc|done|by apply Forall_app|done].
Qed.

Lemma fail_fast_for_each {A B} (body : A -> M World B) l :
  (forall x, fail_fast (body x)) -> fail_fast (for_each body l).
Proof.
  intros Hbody. induction l as [|x l IH]; simpl; [apply fail_fast_ret|].
  apply fail_fast_bind; [done|]. intros y.
  apply fail_fast_bind; [done|]. intros ys. apply fail_fast_ret.
Qed.

Lemma fail_fast_subprocess_run_check cmd : fail_fast (subprocess_run_check sys cmd).
Proof.
  intros w r w' t (rc & _ & -> & ->)%subprocess_run_check_inv.
  destruct rc as [c|e].
  - destruct (Z.eqb_spec c 0) as [->|Hc].
    + left. by repeat constructor.
    + right. exists [], (ERun cmd (Ok c)), (CalledProcessError c cmd).
      split_and!; [done| |constructor|done].
      simpl. by destruct (Z.eqb_spec c 0).
  - right. exists [], (ERun cmd (Raise e)), e. by split_and!.
Qed.

Lemma fail_fast_load_score path :
  fail_fast (vmaf_data <- call (os_load_json sys path) (ELoadJson path) ;;
             vmaf_score <- lift (vmaf_score_of vmaf_data) ;;
             ret vmaf_score).
Proof.
  intros w r w' t
    [(e & [_ ->]%call_inv & ->)
    |(doc & w1 & t1 & t2 & [_ ->]%call_inv & Hrest & ->)]%bind_inv.
  - right. exists [], (ELoadJson path (Raise e)), e. by split_and!.
  - apply bind_inv in Hrest
        as [(e & (Hscore & _ & ->)%lift_inv & ->)
           |(score & w2 & t1 & t3 & (Hscore & _ & ->)%lift_inv & Hret & ->)].
    + right. exists [], (ELoadJson path (Ok doc)), e.
      split_and!; [done| |constructor|done]. simpl. by rewrite <- Hscore.
    + injection Hret as <- <- <-. left.
      repeat constructor. unfold harmless. simpl. by rewrite <- Hscore.
Qed.

Lemma fail_fast_compare_yuv_files exe f1 f2 path :
  fail_fast (compare_yuv_files sys exe f1 f2 path).
Proof.
  apply fail_fast_bind; [apply fail_fast_print|]. intros _.
  apply fail_fast_bind; [apply fail_fast_subprocess_run_check|]. intros _.
  apply fail_fast_load_score.
Qed.

Lemma fail_fast_compare_pair exe images yuv_files i :
  fail_fast (compare_pair sys exe images yuv_files i).
Proof.
  apply fail_fast_bind; [apply fail_fast_lift|]. intros f1.
  apply fail_fast_bind; [apply fail_fast_lift|]. intros f2.
  apply fail_fast_bind; [apply fail_fast_compare_yuv_files|]. intros score.
  apply fail_fast_bind; [apply fail_fast_lift|]. intros im1.
  apply fail_fast_bind; [apply fail_fast_lift|]. intros im2. apply fail_fast_ret.
Qed.

Lemma fail_fast_convert_image image_dir image :
  fail_fast (convert_image sys image_dir image).
Proof.
  apply fail_fast_bind; [apply fail_fast_subprocess_run_check|].
  intros _. apply fail_fast_ret.
Qed.

Lemma fail_fast_write_csv output_csv rowdicts :
  fail_fast (write_csv sys output_csv rowdicts).
Proof.
  apply fail_fast_bind; [by apply fail_fast_call|]. intros _.
  apply fail_fast_bind; [by apply fail_fast_call|]. intros _.
  apply fail_fast_bind; [|intros _; apply fail_fast_ret].
  apply fail_fast_for_each. intros rowdict. by apply fail_fast_call.
Qed.

Lemma fail_fast_main a : fail_fast (main sys a).
Proof.
  unfold main.
  apply fail_fast_bind; [by apply fail_fast_call|]. intros listing.
  apply fail_fast_bind; [apply fail_fast_lift|]. intros images.
  destruct (length images <? 2)%nat; [apply fail_fast_print|].
  apply fail_fast_bind; [by apply fail_fast_call|]. intros _.
  apply fail_fast_bind; [by apply fail_fast_call|]. intros _.
  apply fail_fast_bind.
  { apply fail_fast_for_each. intros image. apply fail_fast_convert_image. }
  intros yuv_files. apply fail_fast_bind.
  { apply fail_fast_for_each. intros i. apply fail_fast_compare_pair. }
  intros comparison_results.
  apply fail_fast_bind; [apply fail_fast_write_csv|]. intros _.
  apply fail_fast_print.
Qed.

End FailFast.

(** X10. Whatever goes wrong stops the run where it happens: when an event
    of a run raises (a directory that cannot be listed or made, a process
    that cannot be started or returns a code other than 0, a result file
    that cannot be read or lacks the score, a CSV file that cannot be
    opened or written), its exception escapes from [main], it is the last
    event of the run, and no event before it raised. *)
Theorem main_stops_at_first_failure {World} (sys : os World) (a : args)
    (w w' : World) (r : result unit) (t : list event) (e : event) (x : exn)
    (Hmain : main sys a w = (r, w', t))
    (Hin : e ∈ t)
    (Hfail : failure e = Some x) :
  r = Raise x /\
  exists t0, t = t0 ++ [e] /\ Forall harmless t0.
Proof.
  destruct (fail_fast_main sys a w r w' t Hmain)
    as [Hall|(t0 & e' & x' & -> & He' & Hall & ->)].
  - eapply Forall_forall in Hall; [|exact Hin].
    unfold harmless in Hall. congruence.
  - apply elem_of_app in Hin as [Hin|Hin].
    + eapply Forall_forall in Hall; [|exact Hin].
      unfold harmless in Hall. congruence.
    + apply list_elem_of_singleton in Hin as ->.
      split; [congruence|by exists t0].
Qed.

Lemma main_stops_at_first_failure_witness :
  (main (stub_os malformed_result) png_args tt).1.1 = Raise KeyError /\
  exists t0,
    (main (stub_os malformed_result) png_args tt).2
    = t0 ++ [ELoadJson "json_dir/compare_0_1.json" (Ok (VDict ∅))] /\
    Forall harmless t0.
Proof.
  apply (main_stops_at_first_failure (stub_os malformed_result) png_args tt
           (main (stub_os malformed_result) png_args tt).1.2).
  - by vm_compute.
  - apply list_elem_of_In. vm_compute.
    repeat (first [left; reflexivity | right]).
  - reflexivity.
Defined.

(** ** Where an exception can come from *)

Section Strict.
Context {World : Type} (sys : os World).

Lemma strict_ret {A} (a : A) : strict (ret a : M World A).
Proof. by intros w r w' t [= <- <- <-] x. Qed.

Lemma strict_print line : strict (print line : M World unit).
Proof. by intros w r w' t [= <- <- <-] x. Qed.

Lemma strict_lift_ok {A} (a : A) : strict (lift (Ok a) : M World A).
Proof. by intros w r w' t [= <- <- <-] x. Qed.

Lemma strict_call {A} (f : World -> result A * World) ev :
  (forall x, failure (ev (Raise x)) = Some x) -> strict (call f ev).
Proof.
  intros Hraise w r w' t [_ ->]%call_inv x ->. by exists [], (ev (Raise x)).
Qed.

Lemma strict_bind {A B} (m : M World A) (k : A -> M World B) :
  strict m -> (forall a, returns m a -> strict (k a)) -> strict (bind m k).
Proof.
  intros Hm Hk w r w' t
    [(e & Hrun & ->)|(a & w1 & t1 & t2 & Hrun & Hrest & ->)]%bind_inv x Hx.
  - injection Hx as ->. by apply (Hm _ _ _ _ Hrun).
  - destruct (Hk a (ex_intro _ w (ex_intro _ w1 (ex_intro _ t1 Hrun)))
                _ _ _ _ Hrest x Hx) as (t0 & e & -> & He).
    exists (t1 ++ t0), e. by rewrite app_assoc.
Qed.

Lemma strict_for_each {A B} (body : A -> M World B) l :
  (forall x, x ∈ l -> strict (body x)) -> strict (for_each body l).
Proof.
  induction l as [|x l IH]; intros Hbody; simpl; [apply strict_ret|].
  apply strict_bind; [apply Hbody; left|]. intros y _.
  apply strict_bind; [apply IH; intros z Hz; apply Hbody; by right|].
  intros ys _. apply strict_ret.
Qed.

Lemma strict_subprocess_run_check cmd : strict (subprocess_run_check sys cmd).
Proof.
  intros w r w' t (rc & _ & -> & ->)%subprocess_run_check_inv x Hx.
  exists [], (ERun cmd rc). split; [done|]. destruct rc as [c|e]; simpl.
  - destruct (Z.eqb_spec c 0); congruence.
  - congruence.
Qed.

Lemma strict_load_score path :
  strict (vmaf_data <- call (os_load_json sys path) (ELoadJson path) ;;
          vmaf_score <- lift (vmaf_score_of vmaf_data) ;;
          ret vmaf_score).
Proof.
  intros w r w' t Hrun x ->.
  destruct (fail_fast_load_score sys path w _ w' t Hrun)
    as [Hall|(t0 & e & y & -> & He & _ & [= ->])]; [|by exists t0, e].
  exfalso. revert Hrun.
  intros [(e & [_ ->]%call_inv & _)
         |(doc & w1 & t1 & t2 & [_ ->]%call_inv & Hrest & ->)]%bind_inv.
  - by apply Forall_cons in Hall as [[=] _].
  - apply bind_inv in Hrest
        as [(e & (Hscore & _ & ->)%lift_inv & [= <-])
           |(score & w2 & t1 & t3 & _ & Hret & _)]; [|done].
    apply Forall_cons in Hall as [Hdoc _]. unfold harmless in Hdoc.
    simpl in Hdoc. by rewrite <- Hscore in Hdoc.
Qed.

Lemma strict_compare_yuv_files exe f1 f2 path :
  strict (compare_yuv_files sys exe f1 f2 path).
Proof.
  apply strict_bind; [apply strict_print|]. intros _ _.
  apply strict_bind; [apply strict_subprocess_run_check|]. intros _ _.
  apply strict_load_score.
Qed.

Lemma strict_convert_image image_dir image :
  strict (convert_image sys image_dir image).
Proof.
  apply strict_bind; [apply strict_subprocess_run_check|].
  intros _ _. apply strict_ret.
Qed.

Lemma index_ok {A} (l : list A) i : i < length l -> exists x, index l i = Ok x.
Proof.
  intros [x Hx]%lookup_lt_is_Some_2. exists x. unfold index. by rewrite Hx.
Qed.

(** No subscript of the comparison loop is out of range. *)
Lemma strict_compare_pair exe images i :
  1 <= i < length images ->
  strict (compare_pair sys exe images (map yuv_file_of images) i).
Proof.
  intros Hi. unfold compare_pair.
  destruct (index_ok (map yuv_file_of images) (i - 1)) as [f1 ->];
    [rewrite length_map; lia|].
  destruct (index_ok (map yuv_file_of images) i) as [f2 ->];
    [rewrite length_map; lia|].
  destruct (index_ok images (i - 1)) as [im1 ->]; [lia|].
  destruct (index_ok images i) as [im2 ->]; [lia|].
  apply strict_bind; [apply strict_lift_ok|]. intros ? _.
  apply strict_bind; [apply strict_lift_ok|]. intros ? _.
  apply strict_bind; [apply strict_compare_yuv_files|]. intros score _.
  apply strict_bind; [apply strict_lift_ok|]. intros ? _.
  apply strict_bind; [apply strict_lift_ok|]. intros ? _. apply strict_ret.
Qed.

Lemma strict_write_csv output_csv rowdicts :
  strict (write_csv sys output_csv rowdicts).
Proof.
  apply strict_bind; [by apply strict_call|]. intros _ _.
  apply strict_bind; [by apply strict_call|]. intros _ _.
  apply strict_bind; [|intros _ _; apply strict_ret].
  apply strict_for_each. intros rowdict _. by apply strict_call.
Qed.

Lemma decorate_exn l e : decorate l = Raise e -> e = IndexError.
Proof.
  induction l as [|x l IH]; simpl; [done|].
  destruct (sort_key x) as [k|e'] eqn:Hx.
  - destruct (decorate l) as [dl|e'']; [done|]. intros [= <-]. by apply IH.
  - intros [= <-]. by apply sort_key_exn in Hx.
Qed.

Lemma lister_exn listing extension e :
  get_sorted_image_list listing extension = Raise e -> e = IndexError.
Proof.
  unfold get_sorted_image_list, sorted_by_key.
  destruct (decorate _) as [dl|e'] eqn:Hdl; [done|]. intros [= <-].
  by apply decorate_exn in Hdl.
Qed.

End Strict.

(** X11. An exception escapes from [main] in two cases only: it is the
    exception of the last event of the run (see [failure]), or it is the
    [IndexError] of the Lister on a matching name without digits, right
    after the directory was listed.  In particular no subscript of the
    comparison loop is ever out of range. *)
Theorem main_exception_origin {World} (sys : os World) (a : args)
    (w w' : World) (x : exn) (t : list event)
    (Hmain : main sys a w = (Raise x, w', t)) :
  (exists t0 e, t = t0 ++ [e] /\ failure e = Some x) \/
  (x = IndexError /\
   exists listing,
     t = [EListdir (Path.str (directory a)) (Ok listing)] /\
     get_sorted_image_list listing (pic_ext a) = Raise IndexError).
Proof.
  revert Hmain. unfold main.
  intros [(e & [_ ->]%call_inv & [= <-])
         |(listing & w1 & t1 & t2 & [_ ->]%call_inv & Hrest & ->)]%bind_inv.
  { left. by exists [], (EListdir (Path.str (directory a)) (Raise x)). }
  apply bind_inv in Hrest
      as [(e & (Himages & _ & ->)%lift_inv & [= <-])
         |(images & w2 & t1 & t3 & (Himages & -> & ->)%lift_inv & Hrest & ->)].
  { right. symmetry in Himages.
    pose proof (lister_exn _ _ _ Himages) as ->. split; [done|].
    by exists listing. }
  left. destruct (Nat.ltb_spec (length images) 2) as [|Hlen]; [done|].
  cut (exists t0 e, t3 = t0 ++ [e] /\ failure e = Some x).
  { intros (t0 & e & -> & He).
    by exists (EListdir (Path.str (directory a)) (Ok listing) :: t0), e. }
  revert Hrest. generalize w1 w' t3. clear -Hlen.
  match goal with
  | |- forall w1 w' t3, ?m w1 = _ -> _ =>
      intros w1 w' t3 Hrest; cut (strict m);
        [by intros Hm; apply (Hm _ _ _ _ Hrest)|]
  end.
  apply strict_bind; [by apply strict_call|]. intros _ _.
  apply strict_bind; [by apply strict_call|]. intros _ _.
  apply strict_bind.
  { apply strict_for_each. intros image _. apply strict_convert_image. }
  intros yuv_files (w2 & w3 & t4 & [-> _]%conversions_ok_inv).
  rewrite length_map. apply strict_bind.
  { apply strict_for_each. intros i [j [-> Hj]%lookup_seq]%list_elem_of_lookup_1.
    apply strict_compare_pair. lia. }
  intros comparison_results _.
  apply strict_bind; [apply strict_write_csv|]. intros _ _.
  apply strict_print.
Qed.

Lemma main_exception_origin_witness :
  (exists t0 e,
      (main (stub_os malformed_result) png_args tt).2 = t0 ++ [e] /\
      failure e = Some KeyError) \/
  (KeyError = IndexError /\
   exists listing,
     (main (stub_os malformed_result) png_args tt).2
     = [EListdir (Path.str (directory png_args)) (Ok listing)] /\
     get_sorted_image_list listing (pic_ext png_args) = Raise IndexError).
Proof.
  apply (main_exception_origin (stub_os malformed_result) png_args tt tt).
  by vm_compute.
Defined.

(** X12. No process is started before the working directories are there:
    in a run that starts a process, the directory was listed, then
    [yuv_dir] and [json_dir] were made (or found), in this order, before
    anything else. *)
Theorem working_directories_come_first {World} (sys : os World) (a : args)
    (w w' : World) (r : result unit) (t : list event)
    (cmd : list string) (x : result Z)
    (Hmain : main sys a w = (r, w', t))
    (Hin : ERun cmd x ∈ t) :
  exists listing rest,
    t = EListdir (Path.str (directory a)) (Ok listing)
        :: EMkdir "yuv_dir" (Ok tt) :: EMkdir "json_dir" (Ok tt) :: rest.
Proof.
  revert Hmain. unfold main.
  intros [(e & [_ ->]%call_inv & _)
         |(listing & w1 & t1 & t2 & [_ ->]%call_inv & Hrest & ->)]%bind_inv.
  { by apply list_elem_of_singleton in Hin. }
  apply bind_inv in Hrest
      as [(e & (_ & _ & ->)%lift_inv & _)
         |(images & w2 & t1 & t3 & (_ & -> & ->)%lift_inv & Hrest & ->)].
  { by apply list_elem_of_singleton in Hin. }
  destruct (length images <? 2)%nat.
  { injection Hrest as <- <- <-.
    apply elem_of_cons in Hin as [[=]|Hin].
    by apply list_elem_of_singleton in Hin. }
  apply bind_inv in Hrest
      as [(e & [_ ->]%call_inv & _)
         |([] & w2 & t1 & t4 & [_ ->]%call_inv & Hrest & ->)].
  { apply elem_of_cons in Hin as [[=]|Hin].
    by apply list_elem_of_singleton in Hin. }
  apply bind_inv in Hrest
      as [(e & [_ ->]%call_inv & _)
         |([] & w3 & t1 & t5 & [_ ->]%call_inv & Hrest & ->)].
  { apply elem_of_cons in Hin as [[=]|Hin].
    apply elem_of_cons in Hin as [[=]|Hin].
    by apply list_elem_of_singleton in Hin. }
  by exists listing, t5.
Qed.

Lemma working_directories_come_first_witness :
  exists listing rest,
    three_images_run
    = EListdir (Path.str (directory png_args)) (Ok listing)
      :: EMkdir "yuv_dir" (Ok tt) :: EMkdir "json_dir" (Ok tt) :: rest.
Proof.
  apply (working_directories_come_first (stub_os three_images) png_args tt tt
           (Ok tt) three_images_run
           (ffmpeg_command "pics/a1.png" "yuv_dir/a1.yuv") (Ok 0%Z)).
  - exact three_images_main.
  - apply list_elem_of_In. vm_compute.
    repeat (first [left; reflexivity | right]).
Defined.

(** ** The report *)

Section Report.
Context {World : Type} (sys : os World).

Lemma bind_assoc {A B C} (m : M World A) (k : A -> M World B)
    (h : B -> M World C) w :
  bind (bind m k) h w = bind m (fun x => bind (k x) h) w.
Proof.
  unfold bind. destruct (m w) as [[[a|e] w1] t1]; [|done].
  destruct (k a w1) as [[[b|e] w2] t2]; [|done].
  destruct (h b w2) as [[r w3] t3]. by rewrite app_assoc.
Qed.

Lemma bind_ext {A B} (m : M World A) (k k' : A -> M World B) w :
  (forall a w1, k a w1 = k' a w1) -> bind m k w = bind m k' w.
Proof.
  intros Hk. unfold bind. destruct (m w) as [[[a|e] w1] t1]; [|done].
  by rewrite Hk.
Qed.

(** After the Lister, [main] is [prepare] followed by [report]. *)
Lemma main_stages a w w1 listing images :
  os_listdir sys (Path.str (directory a)) w = (Ok listing, w1) ->
  get_sorted_image_list listing (pic_ext a) = Ok images ->
  2 <= length images ->
  main sys a w
  = match bind (prepare sys a images) (report sys a) w1 with
    | (r, w', t) => (r, w', EListdir (Path.str (directory a)) (Ok listing) :: t)
    end.
Proof.
  intros Hls Himages Hlen.
  assert (forall w0, bind (prepare sys a images) (report sys a) w0
                     = (mkdir_exist_ok sys yuv_dir ;;;
                        mkdir_exist_ok sys json_dir ;;;
                        yuv_files <- for_each (convert_image sys (directory a)) images ;;
                        comparison_results <-
                          for_each (compare_pair sys (vmaf_exe a) images yuv_files)
                                   (seq 1 (length yuv_files - 1)) ;;
                        write_csv sys (output a) comparison_results ;;;
                        print ("Comparison completed. Results saved to "
                               +:+ Path.str (output a))) w0) as Hsplit.
  { intros w0. unfold prepare. rewrite bind_assoc.
    apply bind_ext. intros _ w2. rewrite bind_assoc.
    apply bind_ext. intros _ w3. by rewrite bind_assoc. }
  rewrite Hsplit. unfold main.
  destruct ((mkdir_exist_ok sys yuv_dir ;;; _) w1) as [[r w'] t] eqn:Hrest.
  erewrite bind_ok; [|by apply call_run|].
  2: { erewrite bind_ok; [|by unfold lift; rewrite Himages|].
       2: { destruct (Nat.ltb_spec (length images) 2) as [|_]; [lia|].
            exact Hrest. }
       done. }
  done.
Qed.

Lemma guarded_prepare a images : guarded (prepare sys a images).
Proof.
  apply guarded_bind; [by apply guarded_call|]. intros _.
  apply guarded_bind; [by apply guarded_call|]. intros _.
  apply guarded_bind.
  { apply guarded_for_each. intros image. apply guarded_convert_image. }
  intros yuv_files. apply guarded_for_each. intros i.
  apply guarded_compare_pair.
Qed.

Lemma prepare_ok_inv a images w rowdicts w' t :
  prepare sys a images w = (Ok rowdicts, w', t) ->
  exists docs scores,
    Forall2 (fun doc score => vmaf_score_of doc = Ok score) docs scores /\
    length docs = length images - 1 /\
    t = [EMkdir "yuv_dir" (Ok tt); EMkdir "json_dir" (Ok tt)]
        ++ map (conversion_event (directory a)) images
        ++ concat (zip_with (comparison_events (vmaf_exe a) images)
                            (seq 1 (length images - 1)) docs) /\
    map dict_to_list rowdicts
    = zip_with (comparison_row images) (seq 1 (length images - 1)) scores.
Proof.
  unfold prepare.
  intros ([] & ? & t1 & t2 & [_ ->]%call_inv & Hrest & ->)%bind_ok_inv.
  apply bind_ok_inv in Hrest
      as ([] & ? & t1 & t3 & [_ ->]%call_inv & Hrest & ->).
  apply bind_ok_inv in Hrest
      as (yuv_files & ? & t1 & t4 & [-> ->]%conversions_ok_inv & Hrest & ->).
  rewrite length_map in Hrest.
  apply comparisons_ok_inv in Hrest
      as (docs & scores & Hscores & Hdocs & -> & Hrows).
  exists docs, scores. rewrite length_seq in Hdocs. by split_and!.
Qed.

Lemma rows_written_row path row u t :
  rows_written (EWriteRow path row (Ok u) :: t) = row :: rows_written t.
Proof. reflexivity. Qed.

Lemma rows_written_failed_row path row e t :
  rows_written (EWriteRow path row (Raise e) :: t) = rows_written t.
Proof. reflexivity. Qed.

Lemma rows_written_open path x t :
  rows_written (EOpenW path x :: t) = rows_written t.
Proof. reflexivity. Qed.

Lemma write_rows_shape path rowdicts w r w' t :
  for_each (fun rowdict =>
              call (os_write_row sys path (dict_to_list rowdict))
                   (EWriteRow path (dict_to_list rowdict))) rowdicts w
  = (r, w', t) ->
  Forall no_open t /\
  rows_written t `prefix_of` map dict_to_list rowdicts /\
  (forall us, r = Ok us -> rows_written t = map dict_to_list rowdicts).
Proof.
  revert w r w' t.
  induction rowdicts as [|rowdict rowdicts IH]; intros w r w' t; simpl.
  - intros [= <- <- <-]. by split_and!.
  - intros [(e & [_ ->]%call_inv & ->)
           |([] & w1 & t1 & t2 & [_ ->]%call_inv & Hrest & ->)]%bind_inv.
    + split_and!; [by repeat constructor|apply prefix_nil|done].
    + change ([?e] ++ ?l) with (e :: l). rewrite rows_written_row.
      apply bind_inv in Hrest
          as [(e & (Hopen & Hpre & _)%IH & ->)
             |(us & w2 & t1 & t3 & (Hopen & _ & Hall)%IH & Hret & ->)].
      * split_and!; [by constructor|by apply prefix_cons|done].
      * injection Hret as <- <- <-. rewrite app_nil_r, (Hall us eq_refl).
        split_and!; [by constructor|done|done].
Qed.

Lemma write_csv_shape output_csv rowdicts w r w' t :
  write_csv sys output_csv rowdicts w = (r, w', t) ->
  exists x rest,
    t = EOpenW (Path.str output_csv) x :: rest /\
    Forall no_open rest /\
    (forall e, x = Raise e -> rest = [] /\ r = Raise e) /\
    rows_written t
      `prefix_of` map VStr fieldnames :: map dict_to_list rowdicts /\
    (forall u, r = Ok u ->
       rows_written t = map VStr fieldnames :: map dict_to_list rowdicts).
Proof.
  unfold write_csv.
  intros [(e & [_ ->]%call_inv & ->)
         |([] & w1 & t1 & t2 & [_ ->]%call_inv & Hrest & ->)]%bind_inv.
  { exists (Raise e), [].
    split_and!; [done|done|by intros ? [= ->]|apply prefix_nil|done]. }
  exists (Ok tt), t2. split; [done|].
  change ([?e] ++ ?l) with (e :: l). rewrite rows_written_open.
  apply bind_inv in Hrest
      as [(e & [_ ->]%call_inv & ->)
         |([] & w2 & t1 & t3 & [_ ->]%call_inv & Hrest & ->)].
  { split_and!; [by repeat constructor|done|apply prefix_nil|done]. }
  change ([?e] ++ ?l) with (e :: l). rewrite rows_written_row.
  apply bind_inv in Hrest
      as [(e & (Hopen & Hpre & _)%write_rows_shape & ->)
         |(us & w3 & t1 & t4 & (Hopen & _ & Hall)%write_rows_shape & Hret & ->)].
  - split_and!; [by constructor|done|by apply prefix_cons|done].
  - injection Hret as <- <- <-. rewrite app_nil_r, (Hall us eq_refl).
    split_and!; [by constructor|done|done|done].
Qed.

Lemma report_shape a rowdicts w r w' t :
  report sys a rowdicts w = (r, w', t) ->
  exists x rest,
    t = EOpenW (Path.str (output a)) x :: rest /\ Forall no_open rest.
Proof.
  unfold report.
  intros [(e & (x & rest & -> & Hopen & _)%write_csv_shape & ->)
         |([] & w1 & t1 & t2 & (x & rest & -> & Hopen & _)%write_csv_shape
           & Hprint & ->)]%bind_inv.
  - by exists x, rest.
  - injection Hprint as <- <- <-. exists x, (rest ++ [completed (output a)]).
    split; [done|]. apply Forall_app. split; [done|by repeat constructor].
Qed.

End Report.

(** X13. The CSV file is opened once at most, at the output path, and only
    when every conversion and every comparison has succeeded: a run in which
    a file is opened for writing listed two images or more, made the
    working directories, converted every image and compared every pair with
    a well-formed result, before it opened the file; a run that fails
    earlier leaves the output path alone. *)
Theorem report_only_after_all_comparisons {World} (sys : os World) (a : args)
    (w w1 w' : World) (listing images : list string)
    (r : result unit) (t : list event) (p : string) (x : result unit)
    (Hls : os_listdir sys (Path.str (directory a)) w = (Ok listing, w1))
    (Himages : get_sorted_image_list listing (pic_ext a) = Ok images)
    (Hmain : main sys a w = (r, w', t))
    (Hopen : EOpenW p x ∈ t) :
  p = Path.str (output a) /\
  2 <= length images /\
  exists docs scores rest,
    Forall2 (fun doc score => vmaf_score_of doc = Ok score) docs scores /\
    length docs = length images - 1 /\
    t = [EListdir (Path.str (directory a)) (Ok listing);
         EMkdir "yuv_dir" (Ok tt); EMkdir "json_dir" (Ok tt)]
        ++ map (conversion_event (directory a)) images
        ++ concat (zip_with (comparison_events (vmaf_exe a) images)
                            (seq 1 (length images - 1)) docs)
        ++ EOpenW p x :: rest /\
    Forall no_open rest.
Proof.
  destruct (Nat.le_gt_cases 2 (length images)) as [Hlen|Hfew].
  2: { rewrite (main_not_enough sys a w w1 listing images Hls Himages Hfew)
         in Hmain.
       injection Hmain as <- <- <-.
       apply elem_of_cons in Hopen as [[=]|Hopen].
       by apply list_elem_of_singleton in Hopen. }
  rewrite (main_stages sys a w w1 listing images Hls Himages Hlen) in Hmain.
  destruct (bind (prepare sys a images) (report sys a) w1)
    as [[r0 w0] t0] eqn:Hrun.
  injection Hmain as <- <- <-.
  apply elem_of_cons in Hopen as [[=]|Hopen].
  apply bind_inv in Hrun
      as [(e & Hprep & ->)
         |(rowdicts & w2 & t1 & t2 & Hprep & Hrep & ->)].
  { destruct (guarded_prepare sys a images _ _ _ _ Hprep) as [Hcsv _].
    eapply Forall_forall in Hcsv; [|exact Hopen]. done. }
  destruct (guarded_prepare sys a images _ _ _ _ Hprep) as [Hcsv _].
  apply prepare_ok_inv in Hprep as (docs & scores & Hscores & Hdocs & -> & _).
  apply report_shape in Hrep as (x0 & rest & -> & Hrest).
  apply elem_of_app in Hopen as [Hopen|Hopen].
  { eapply Forall_forall in Hcsv; [|exact Hopen]. done. }
  apply elem_of_cons in Hopen as [[= -> ->]|Hopen].
  2: { eapply Forall_forall in Hrest; [|exact Hopen]. done. }
  split_and!; [done..|].
  exists docs, scores, rest. split_and!; [done..| |done].
  simpl. by rewrite <- !app_assoc.
Qed.

Lemma report_only_after_all_comparisons_witness :
  "comparison.csv" = Path.str (output png_args) /\
  2 <= length ["a1.png"; "a2.png"; "a3.png"] /\
  exists docs scores rest,
    Forall2 (fun doc score => vmaf_score_of doc = Ok score) docs scores /\
    length docs = length ["a1.png"; "a2.png"; "a3.png"] - 1 /\
    three_images_run
    = [EListdir (Path.str (directory png_args)) (Ok (stub_listing three_images));
       EMkdir "yuv_dir" (Ok tt); EMkdir "json_dir" (Ok tt)]
      ++ map (conversion_event (directory png_args)) ["a1.png"; "a2.png"; "a3.png"]
      ++ concat (zip_with (comparison_events (vmaf_exe png_args)
                             ["a1.png"; "a2.png"; "a3.png"])
                          (seq 1 (length ["a1.png"; "a2.png"; "a3.png"] - 1)) docs)
      ++ EOpenW "comparison.csv" (Ok tt) :: rest /\
    Forall no_open rest.
Proof.
  apply (report_only_after_all_comparisons (stub_os three_images) png_args
           tt tt tt (stub_listing three_images) ["a1.png"; "a2.png"; "a3.png"]
           (Ok tt) three_images_run "comparison.csv" (Ok tt)).
  - reflexivity.
  - by vm_compute.
  - exact three_images_main.
  - apply list_elem_of_In. vm_compute.
    repeat (first [left; reflexivity | right]).
Defined.

(** X14. The Reporter writes the header first and then the rows in their
    order: whatever happens, the rows that reached the file are the first
    of the header and the rows of the comparisons, all of them when the
    Reporter returns; and when the file cannot be opened nothing is
    written. *)
Theorem reporter_writes_in_order {World} (sys : os World)
    (output_csv : Path.t) (comparison_results : list (gmap string value))
    (w w' : World) (r : result unit) (t : list event)
    (Hrun : write_csv sys output_csv comparison_results w = (r, w', t)) :
  exists x rest,
    t = EOpenW (Path.str output_csv) x :: rest /\
    Forall no_open rest /\
    (forall e, x = Raise e -> rest = [] /\ r = Raise e) /\
    rows_written t
      `prefix_of` map VStr fieldnames :: map dict_to_list comparison_results /\
    (forall u, r = Ok u ->
       rows_written t
       = map VStr fieldnames :: map dict_to_list comparison_results).
Proof. exact (write_csv_shape sys _ _ _ _ _ _ Hrun). Qed.

Lemma reporter_writes_in_order_witness :
  exists x rest,
    (write_csv (stub_os three_images) (Path.of_name "comparison.csv")
       [{[ "Image 1" := VStr "a1.png"; "Image 2" := VStr "a2.png";
           "VMAF Score" := VInt 90 ]}] tt).2
    = EOpenW (Path.str (Path.of_name "comparison.csv")) x :: rest /\
    Forall no_open rest.
Proof.
  destruct (reporter_writes_in_order (stub_os three_images)
              (Path.of_name "comparison.csv")
              [{[ "Image 1" := VStr "a1.png"; "Image 2" := VStr "a2.png";
                  "VMAF Score" := VInt 90 ]}] tt tt (Ok tt)
              (write_csv (stub_os three_images) (Path.of_name "comparison.csv")
                 [{[ "Image 1" := VStr "a1.png"; "Image 2" := VStr "a2.png";
                     "VMAF Score" := VInt 90 ]}] tt).2)
    as (x & rest & Ht & Hopen & _).
  - by vm_compute.
  - by exists x, rest.
Defined.

(** ** The converted frames *)

Lemma app_inv_tail_string s1 s2 t : s1 +:+ t = s2 +:+ t -> s1 = s2.
Proof.
  revert s2. induction s1 as [|c s1 IH]; intros [|c' s2] Heq.
  - done.
  - apply (f_equal String.length) in Heq.
    rewrite app_empty_l, app_cons in Heq. simpl in Heq.
    rewrite length_app_string in Heq. lia.
  - apply (f_equal String.length) in Heq.
    rewrite app_empty_l, app_cons in Heq. simpl in Heq.
    rewrite length_app_string in Heq. lia.
  - rewrite !app_cons in Heq. injection Heq as -> Heq. f_equal. by apply IH.
Qed.

Lemma matching_name_stem extension f :
  extension <> "" -> Str.rfind_dot extension = None ->
  matches extension f = true -> f <> "." +:+ extension ->
  f = Path.stem f +:+ "." +:+ extension.
Proof.
  intros Hext Hdot [pre ->]%endswith_inv Hf.
  rewrite stem_base_ext; [done| |done..].
  intros ->. by rewrite app_empty_l in Hf.
Qed.

(** X15. Two different images never share a converted frame: for an
    extension without a dot, two names that end in [.<extension>], neither
    being the bare [.<extension>], are converted to the same file of
    [yuv_dir] only if they are the same name. *)
Theorem converted_frames_do_not_collide (extension f g : string)
    (Hext : extension <> "") (Hdot : Str.rfind_dot extension = None)
    (Hf : matches extension f = true) (Hg : matches extension g = true)
    (Hf0 : f <> "." +:+ extension) (Hg0 : g <> "." +:+ extension)
    (Heq : Path.str (yuv_file_of f) = Path.str (yuv_file_of g)) :
  f = g.
Proof.
  rewrite (matching_name_stem extension f), (matching_name_stem extension g)
    by done.
  f_equal. rewrite !yuv_file_str in Heq.
  apply (app_inv_tail_string _ _ ".yuv").
  generalize dependent (Path.stem g +:+ ".yuv").
  generalize (Path.stem f +:+ ".yuv").
  intros s1 s2 [= Heq]. by simpl in Heq.
Qed.

Lemma converted_frames_do_not_collide_witness :
  Path.str (yuv_file_of "a1.png") = "yuv_dir/a1.yuv" /\ "a1.png" = "a1.png".
Proof.
  split; [reflexivity|].
  apply (converted_frames_do_not_collide "png" "a1.png" "a1.png");
    [discriminate|reflexivity|reflexivity|reflexivity|discriminate
    |discriminate|reflexivity].
Defined.
